(** * The websocket-tunnel client's error taxonomy (package [whclient])

    A shallow embedding of [whclient/errors.go]: the [clientError] struct,
    its three value-receiver methods, and the seven package-level error
    values.  Go's [net.Error] interface, which the struct is documented to
    implement, is rendered as a type class; the method set of the struct is
    rendered as a dispatch table keyed by method name, so that "this value
    exposes method m" is a statement that can fail. *)

From Stdlib Require Import String List Bool.
From Stdlib Require Import Ascii NArith PeanoNat Lia DecimalString DecimalN Sorted.
Import ListNotations.

Local Open Scope string_scope.

(** ** Go values that the methods of this package return *)

Inductive go_type : Type :=
| TString
| TBool.

Inductive go_value : Type :=
| VString (s : string)
| VBool (b : bool).

(** ** The [net.Error] interface

    [interface { error; Timeout() bool; Temporary() bool }], where [error]
    is [interface { Error() string }]. *)

Class net_Error (E : Type) : Type := {
  iface_Error : E -> string;
  iface_Timeout : E -> bool;
  iface_Temporary : E -> bool
}.

(** The same interface as a list of required method names and result types. *)
Definition net_Error_methods : list (string * go_type) :=
  [ ("Error", TString); ("Timeout", TBool); ("Temporary", TBool) ].

Module Whclient.

(** [type clientError struct { errString string; reconnect bool; timeout bool }] *)
Record clientError : Type := mkClientError {
  errString : string;
  reconnect : bool;
  timeout : bool
}.

(** The zero value of the struct: what a composite literal starts from, so
    that a field the literal does not mention keeps its zero value. *)
Definition zero : clientError :=
  {| errString := EmptyString; reconnect := false; timeout := false |}.

Definition set_errString (s : string) (c : clientError) : clientError :=
  {| errString := s; reconnect := reconnect c; timeout := timeout c |}.

Definition set_reconnect (b : bool) (c : clientError) : clientError :=
  {| errString := errString c; reconnect := b; timeout := timeout c |}.

Definition set_timeout (b : bool) (c : clientError) : clientError :=
  {| errString := errString c; reconnect := reconnect c; timeout := b |}.

(** [func (c clientError) Error() string { return c.errString }] *)
Definition Error (c : clientError) : string := errString c.

(** [func (c clientError) Temporary() bool { return c.reconnect }] *)
Definition Temporary (c : clientError) : bool := reconnect c.

(** [func (c clientError) Timeout() bool { return c.timeout }] *)
Definition Timeout (c : clientError) : bool := timeout c.

(** "clientError implements net.Error". *)
#[export] Instance clientError_net_Error : net_Error clientError := {|
  iface_Error := Error;
  iface_Timeout := Timeout;
  iface_Temporary := Temporary
|}.

(** The method set of [clientError], in declaration order. *)
Definition clientError_methods : list (string * go_type) :=
  [ ("Error", TString); ("Temporary", TBool); ("Timeout", TBool) ].

(** Calling a method by name on a [clientError]; [None] when the struct has
    no method of that name. *)
Definition call (c : clientError) (m : string) : option go_value :=
  if (m =? "Error")%string then Some (VString (Error c))
  else if (m =? "Temporary")%string then Some (VBool (Temporary c))
  else if (m =? "Timeout")%string then Some (VBool (Timeout c))
  else None.

(** A method set [ms] satisfies an interface when every required method is
    present with the required result type. *)
Definition has_method (ms : list (string * go_type)) (req : string * go_type) : bool :=
  existsb
    (fun m => (fst m =? fst req)%string
              && match snd m, snd req with
                 | TString, TString | TBool, TBool => true
                 | _, _ => false
                 end)
    ms.

Definition implements (ms iface : list (string * go_type)) : bool :=
  forallb (has_method ms) iface.

(** *** The package-level error values

    Each is a composite literal over [zero]; the fields are set in the order
    the literal writes them. *)

(** ErrRetryTimedOut is returned when Reconnect() time exceeds MaxElapsedTime. *)
Definition ErrRetryTimedOut : clientError :=
  set_errString "retry timed out" (set_timeout true zero).

(** ErrBadToken is returned when a usable token can not be generated by the
    authorizer. *)
Definition ErrBadToken : clientError :=
  set_errString "bad auth token" zero.

(** ErrRetryFailed is returned when retry attempts fail. *)
Definition ErrRetryFailed : clientError :=
  set_errString "retry failed" zero.

(** ErrClientReconnecting is returned when the connection is reconnecting.
    This is a temporary error. *)
Definition ErrClientReconnecting : clientError :=
  set_reconnect true (set_errString "client reconnecting" zero).

(** ErrClientClosed is returned from an Accept call when the client is closed. *)
Definition ErrClientClosed : clientError :=
  set_errString "client closed" zero.

(** ErrAuthorizerNotProvided is returned from New when an Authorizer is not
    provided. *)
Definition ErrAuthorizerNotProvided : clientError :=
  set_errString "authorizer function was not provided to client" zero.

(** ErrTLSConfigRequired is returned when the client attempts to use a
    wss:// url without a TLS config. *)
Definition ErrTLSConfigRequired : clientError :=
  set_errString "tls config must be provided to use secure connections" zero.

(** The [var ( ... )] block, in source order. *)
Definition exported_errors : list clientError :=
  [ ErrRetryTimedOut; ErrBadToken; ErrRetryFailed; ErrClientReconnecting;
    ErrClientClosed; ErrAuthorizerNotProvided; ErrTLSConfigRequired ].

Definition clientError_eqb (a b : clientError) : bool :=
  (errString a =? errString b)%string
  && Bool.eqb (reconnect a) (reconnect b)
  && Bool.eqb (timeout a) (timeout b).

(** *** The taxonomy of the specification, to be compared with the code *)

Inductive Kind : Type :=
| bad_token
| client_reconnecting
| retry_timed_out
| retry_failed
| client_closed
| authorizer_not_provided
| tls_config_required.

Definition all_kinds : list Kind :=
  [ bad_token; client_reconnecting; retry_timed_out; retry_failed;
    client_closed; authorizer_not_provided; tls_config_required ].

(** The taxonomy table of the specification as a pair (temporary, timeout):
    client-reconnecting is annotated temporary=true, retry-timed-out is
    annotated timeout=true, and no other entry carries an annotation. *)
Definition spec_disposition (k : Kind) : bool * bool :=
  match k with
  | client_reconnecting => (true, false)
  | retry_timed_out => (false, true)
  | bad_token | retry_failed | client_closed
  | authorizer_not_provided | tls_config_required => (false, false)
  end.

(** The Go variable that carries each kind. *)
Definition error_of_kind (k : Kind) : clientError :=
  match k with
  | bad_token => ErrBadToken
  | client_reconnecting => ErrClientReconnecting
  | retry_timed_out => ErrRetryTimedOut
  | retry_failed => ErrRetryFailed
  | client_closed => ErrClientClosed
  | authorizer_not_provided => ErrAuthorizerNotProvided
  | tls_config_required => ErrTLSConfigRequired
  end.

(** What a caller holding the value as a [net.Error] observes. *)
Definition classify (c : clientError) : bool * bool :=
  (iface_Temporary c, iface_Timeout c).

End Whclient.

(** * The listener facade's [close()] *)

Module Listener.

Import Whclient.

(** ClientState: one of Idle, Connecting, Connected, Reconnecting, Closed. *)
Inductive ClientState : Type :=
| Idle
| Connecting
| Connected
| Reconnecting
| Closed.

(** An operation suspended on the client: an [accept()], or a read or a
    write on the virtual connection of a stream. *)
Inductive blocked_op : Type :=
| OpAccept
| OpRead (stream : nat)
| OpWrite (stream : nat).

(** A call either returns (with or without an error) or is left suspended. *)
Inductive outcome : Type :=
| Returned (err : option clientError)
| Blocked.

(** The client-wide state that [close()] touches: the state-machine state,
    the live physical transport (tagged by its generation) if any, the
    operations currently suspended, and whether a backoff sleep is running. *)
Record Client : Type := mkClient {
  state : ClientState;
  transport : option nat;
  pending : list blocked_op;
  backoff_sleeping : bool
}.

(** What one call of [close()] does: the client afterwards, the outcome of
    the call itself, and the suspended operations it wakes with their error. *)
Record close_effect : Type := mkCloseEffect {
  after : Client;
  result : outcome;
  woken : list (blocked_op * clientError)
}.

(** Modelled from the spec: the listener facade's [close()] (the client
    source file is not part of the material; only the error values it
    returns are).  "transitions to Closed, unblocks every pending accept()
    with a client-closed error, unblocks every pending virtual-connection
    read/write with a client-closed error, interrupts any in-progress backoff
    sleep, and releases the physical transport if open"; "any state -> Closed
    on explicit close()". *)
Definition close (c : Client) : close_effect :=
  {| after := {| state := Closed;
                 transport := None;
                 pending := [];
                 backoff_sleeping := false |};
     result := Returned None;
     woken := map (fun op => (op, ErrClientClosed)) (pending c) |}.

(** The client after [n] successive calls of [close()]. *)
Fixpoint close_times (n : nat) (c : Client) : Client :=
  match n with
  | O => c
  | S k => close_times k (after (close c))
  end.

End Listener.

(** * The [db/versions/README] generator ([generators/db-versions.js])

    JavaScript strings are sequences of UTF-16 code units; the model keeps
    them as lists of numbers, so that the line terminators the regular
    expression treats specially (U+2028 and U+2029 among them) are single
    elements, as they are for the regexp engine. *)

Module JS.

Local Open Scope list_scope.
Local Open Scope nat_scope.

Definition code_unit : Type := N.
Definition jsstring : Type := list code_unit.

(** A string literal of the source (ASCII), as code units. *)
Definition lit (s : string) : jsstring :=
  map N_of_ascii (list_ascii_of_string s).

Definition LF : code_unit := 10%N.
Definition CR : code_unit := 13%N.
Definition LS : code_unit := 8232%N.
Definition PS : code_unit := 8233%N.
Definition DOLLAR : code_unit := 36%N.

(** The filler of [padStart]: [fillString] repeated, cut to [n] code units
    ([rest] is what is left of the copy being written). *)
Fixpoint filler (fillString rest : jsstring) (n : nat) : jsstring :=
  match n with
  | O => []
  | S k =>
      match rest with
      | c :: rest' => c :: filler fillString rest' k
      | [] =>
          match fillString with
          | c :: rest' => c :: filler fillString rest' k
          | [] => []
          end
      end
  end.

(** [String.prototype.padStart(maxLength, fillString)]: the string itself
    when it is long enough or the filler is empty. *)
Definition padStart (maxLength : nat) (fillString s : jsstring) : jsstring :=
  if maxLength <=? length s then s
  else match fillString with
       | [] => s
       | _ :: _ => filler fillString fillString (maxLength - length s) ++ s
       end.

(** [Array.prototype.join(sep)] on an array of strings. *)
Fixpoint join (sep : jsstring) (xs : list jsstring) : jsstring :=
  match xs with
  | [] => []
  | x :: rest =>
      match rest with
      | [] => x
      | _ :: _ => x ++ sep ++ join sep rest
      end
  end.

(** [Number.MAX_SAFE_INTEGER] *)
Definition MAX_SAFE_INTEGER : N := (2 ^ 53 - 1)%N.

(** [Number.prototype.toString()] on a non-negative safe integer (one up to
    [MAX_SAFE_INTEGER]): its decimal digits. *)
Definition Number_toString (n : N) : jsstring :=
  lit (NilZero.string_of_uint (N.to_uint n)).

(** Code units back to a Rocq string, and a string of decimal digits back to
    the number it writes ([None] when a code unit is not a digit or the
    string is empty). *)
Definition unlit (s : jsstring) : string :=
  string_of_list_ascii (map ascii_of_N s).

Definition is_digit (c : code_unit) : bool := ((48 <=? c) && (c <=? 57))%N.

Definition parse_decimal (s : jsstring) : option N :=
  if forallb is_digit s
  then option_map N.of_uint (NilZero.uint_of_string (unlit s))
  else None.

(** [v || d] for [v] a string or [undefined]: the empty string is falsy. *)
Definition or_else (v : option jsstring) (d : jsstring) : jsstring :=
  match v with
  | Some (c :: s) => c :: s
  | Some [] | None => d
  end.

Fixpoint starts_with (p s : jsstring) : bool :=
  match p with
  | [] => true
  | a :: p' =>
      match s with
      | [] => false
      | b :: s' => (a =? b)%N && starts_with p' s'
      end
  end.

Definition digit_value (c : code_unit) : nat := N.to_nat (c - 48).

(** The capture numbered [index] (from 1), if there is one. *)
Definition capture (captures : list jsstring) (index : nat) : option jsstring :=
  match index with
  | O => None
  | S i => nth_error captures i
  end.

(** [GetSubstitution] of ECMAScript, for a pattern without named groups whose
    captures all took part in the match: [$$], [$&], [$`], [$'], [$n] and
    [$nn] are replaced in [template]; a two-digit reference beyond the number
    of captures is read as a one-digit reference followed by a digit; any
    other [$] stands for itself. *)
Fixpoint GetSubstitution (matched before after : jsstring)
    (captures : list jsstring) (template : jsstring) : jsstring :=
  match template with
  | [] => []
  | c :: t1 =>
      if negb (c =? DOLLAR)%N then
        c :: GetSubstitution matched before after captures t1
      else
        match t1 with
        | [] => [c]
        | d1 :: t2 =>
            if (d1 =? DOLLAR)%N then
              DOLLAR :: GetSubstitution matched before after captures t2
            else if (d1 =? 38)%N then
              matched ++ GetSubstitution matched before after captures t2
            else if (d1 =? 96)%N then
              before ++ GetSubstitution matched before after captures t2
            else if (d1 =? 39)%N then
              after ++ GetSubstitution matched before after captures t2
            else if is_digit d1 then
              let one :=
                match capture captures (digit_value d1) with
                | Some s => s ++ GetSubstitution matched before after captures t2
                | None => c :: d1 :: GetSubstitution matched before after captures t2
                end in
              match t2 with
              | [] => one
              | d2 :: t3 =>
                  if is_digit d2 then
                    let index := 10 * digit_value d1 + digit_value d2 in
                    if length captures <? index then one
                    else
                      match capture captures index with
                      | Some s =>
                          s ++ GetSubstitution matched before after captures t3
                      | None =>
                          c :: d1 :: d2
                            :: GetSubstitution matched before after captures t3
                      end
                  else one
              end
            else
              c :: GetSubstitution matched before after captures t1
        end
  end.

End JS.

Module DbVersions.

Import JS.
Local Open Scope list_scope.
Local Open Scope nat_scope.

(** An element of [schema.versions], as far as the generator reads it: the
    version number (a non-negative safe integer) and the description, which
    may be missing. *)
Record Version : Type := mkVersion {
  version : N;
  description : option jsstring
}.

(** [const zpad = version.version.toString().padStart(4, '0')] *)
Definition zpad (v : Version) : jsstring :=
  padStart 4 (lit "0") (Number_toString (version v)).

(** The template literal pushed for one version. *)
Definition row (v : Version) : jsstring :=
  lit "| [" ++ zpad v ++ lit "](./" ++ zpad v ++ lit ".yml) | "
    ++ or_else (description v) [] ++ lit " |".

(** The [table] array after the loop: two pushes, then one per version. *)
Definition table (versions : list Version) : list jsstring :=
  fold_left (fun table v => table ++ [row v]) versions
    [lit "| DB Version | Description |"; lit "| --- | --- |"].

(** The two markers of the regular expression. *)
Definition BEGIN : jsstring := lit "<!-- AUTOGENERATED DO NOT EDIT -->".
Definition END : jsstring := lit "<!-- AUTOGENERATED DO NOT EDIT - END -->".

(** [.] without the [s] flag: any code unit but a line terminator. *)
Definition dot (c : code_unit) : bool :=
  negb ((c =? LF)%N || (c =? CR)%N || (c =? LS)%N || (c =? PS)%N).

(** [(?:.|\n)] *)
Definition dot_or_LF (c : code_unit) : bool := dot c || (c =? LF)%N.

(** [(?:.|\n)*(END)] matched at the front of [s] by backtracking: the star
    takes a code unit and the rest is tried; when that fails, the star stops
    here and [END] must follow.  The result is the number of code units
    matched. *)
Fixpoint star_END (s : jsstring) : option nat :=
  match s with
  | [] => if starts_with END s then Some (length END) else None
  | c :: s' =>
      if dot_or_LF c then
        match star_END s' with
        | Some k => Some (S k)
        | None => if starts_with END s then Some (length END) else None
        end
      else if starts_with END s then Some (length END) else None
  end.

(** The whole pattern [(BEGIN)(?:.|\n)*(END)] matched at the front of [s]. *)
Definition match_here (s : jsstring) : option nat :=
  if starts_with BEGIN s then
    match star_END (skipn (length BEGIN) s) with
    | Some k => Some (length BEGIN + k)
    | None => None
    end
  else None.

(** The first match of the pattern in [s]: its index and its length. *)
Fixpoint exec (s : jsstring) : option (nat * nat) :=
  match match_here s with
  | Some len => Some (0, len)
  | None =>
      match s with
      | [] => None
      | _ :: s' =>
          match exec s' with
          | Some (i, len) => Some (S i, len)
          | None => None
          end
      end
  end.

(** [content.replace(/(BEGIN)(?:.|\n)*(END)/m, replacement)]: the pattern is
    not global, so only the first match is replaced; the [m] flag changes
    only [^] and [$], which the pattern does not use. *)
Definition replace (content replacement : jsstring) : jsstring :=
  match exec content with
  | None => content
  | Some (i, len) =>
      let before := firstn i content in
      let matched := firstn len (skipn i content) in
      let after := skipn (i + len) content in
      before ++ GetSubstitution matched before after [BEGIN; END] replacement
        ++ after
  end.

(** The function [run] hands to [modifyRepoFile]. *)
Definition update (versions : list Version) (content : jsstring) : jsstring :=
  replace content
    (lit "$1" ++ [LF] ++ join [LF] (table versions) ++ [LF] ++ lit "$2").

(** Text that the replacement pattern and the star both take as it is: no
    [$] and no line terminator other than a line feed. *)
Definition no_dollar (c : code_unit) : bool := negb (c =? DOLLAR)%N.

Definition plain_text (s : jsstring) : bool :=
  forallb (fun c => no_dollar c && dot_or_LF c) s.

(** What the pattern matches, stated on the text: [s] reads [mid], [END],
    [post] with [mid] made of code units the star takes. *)
Definition star_match (s mid post : jsstring) : Prop :=
  s = mid ++ END ++ post /\ forallb dot_or_LF mid = true.

Definition full_match (s mid post : jsstring) : Prop :=
  s = BEGIN ++ mid ++ END ++ post /\ forallb dot_or_LF mid = true.

(** The first match of the pattern in [s]: it starts after [pre], the star
    took [mid], and [post] follows; no match starts earlier, and the star
    could not have taken more. *)
Definition first_match (s pre mid post : jsstring) : Prop :=
  s = pre ++ BEGIN ++ mid ++ END ++ post
  /\ forallb dot_or_LF mid = true
  /\ (forall pre1 mid1 post1,
        s = pre1 ++ BEGIN ++ mid1 ++ END ++ post1 ->
        forallb dot_or_LF mid1 = true -> length pre <= length pre1)
  /\ (forall mid1 post1,
        mid ++ END ++ post = mid1 ++ END ++ post1 ->
        forallb dot_or_LF mid1 = true -> length mid1 <= length mid).

(** A README with a block to replace, for the examples. *)
Definition example_readme : jsstring :=
  lit "# Versions" ++ [LF] ++ BEGIN ++ [LF] ++ lit "old" ++ [LF] ++ END
    ++ [LF] ++ lit "tail".

(** The same block in a file with CR LF line ends. *)
Definition example_crlf : jsstring :=
  BEGIN ++ [CR; LF] ++ lit "old" ++ [CR; LF] ++ END.

Definition example_versions : list Version :=
  [ mkVersion 1 (Some (lit "first")); mkVersion 12 None ].

End DbVersions.

(** * The loader of references and schemas ([load], [loadReferences],
      [loadSchemas]) *)

Module Loader.

Local Open Scope list_scope.
Local Open Scope nat_scope.

(** A path below [directory], as the components joined so far:
    [path.join(p, d)] adds the component [d].  The components are names as
    [fs.readdirSync] returns them, or the literals of the source. *)
Definition path : Type := list string.

Definition join (p : path) (d : string) : path := p ++ [d].

(** A snapshot of the tree below [directory]: directories and regular files
    (no symbolic links).  A file holds what [fs.readFileSync] returns, or
    nothing when reading it fails. *)
#[warnings="-register-all"]
Inductive node : Type :=
| File (data : option string)
| Dir (entries : list (string * node)).

Fixpoint find_entry (es : list (string * node)) (d : string) : option node :=
  match es with
  | [] => None
  | (name, n) :: es' => if (name =? d)%string then Some n else find_entry es' d
  end.

Fixpoint lookup (n : node) (p : path) : option node :=
  match p with
  | [] => Some n
  | d :: p' =>
      match n with
      | File _ => None
      | Dir es =>
          match find_entry es d with
          | Some m => lookup m p'
          | None => None
          end
      end
  end.

(** What the loader can throw: the errors of [fs], the [SyntaxError] of
    [JSON.parse], and its own "is not a directory". *)
Inductive exn : Type :=
| ENOENT (p : path)
| ENOTDIR (p : path)
| EISDIR (p : path)
| EIO (p : path)
| SyntaxError (p : path)
| NotADirectory (p : path).

Inductive result (A : Type) : Type :=
| Ok (a : A)
| Throw (e : exn).
Arguments Ok {A} a.
Arguments Throw {A} e.

Definition bind {A B : Type} (r : result A) (k : A -> result B) : result B :=
  match r with
  | Ok a => k a
  | Throw e => Throw e
  end.

(** [String.prototype.startsWith] with a one-character argument. *)
Definition startsWith (s : string) (c : ascii) : bool :=
  match s with
  | String a _ => Ascii.eqb a c
  | EmptyString => false
  end.

(** The number of loop iterations that empty a queue holding this node,
    whatever names its directories list. *)
Fixpoint weight (n : node) : nat :=
  match n with
  | File _ => 1
  | Dir es =>
      1 + length es * list_sum (map (fun e => weight (snd e)) es)
  end.

Section Load.

Variable json : Type.

(** [JSON.parse]; [None] when it throws a [SyntaxError]. *)
Variable JSON_parse : string -> option json.

(** [path.extname] *)
Variable extname : string -> string.

(** The tree below [directory]. *)
Variable fs : node.

(** An element of [references] or of [schemas]. *)
Record entry : Type := mkEntry {
  filename : path;
  content : json
}.

Definition existsSync (p : path) : bool :=
  match lookup fs p with
  | Some _ => true
  | None => false
  end.

(** [fs.lstatSync(p).isDirectory()] *)
Definition isDirectory (p : path) : result bool :=
  match lookup fs p with
  | None => Throw (ENOENT p)
  | Some (Dir _) => Ok true
  | Some (File _) => Ok false
  end.

Definition readdirSync (p : path) : result (list string) :=
  match lookup fs p with
  | None => Throw (ENOENT p)
  | Some (File _) => Throw (ENOTDIR p)
  | Some (Dir es) => Ok (map fst es)
  end.

Definition readFileSync (p : path) : result string :=
  match lookup fs p with
  | None => Throw (ENOENT p)
  | Some (Dir _) => Throw (EISDIR p)
  | Some (File None) => Throw (EIO p)
  | Some (File (Some data)) => Ok data
  end.

(** [JSON.parse(fs.readFileSync(filename))] *)
Definition parseFile (p : path) : result json :=
  bind (readFileSync p) (fun data =>
    match JSON_parse data with
    | Some c => Ok c
    | None => Throw (SyntaxError p)
    end).

(** The body of the [for] loop of [loadReferences], over the names that
    passed the filter. *)
Fixpoint loadReferences_loop (referencesDir : path) (names : list string)
    (references : list entry) : result (list entry) :=
  match names with
  | [] => Ok references
  | name :: names' =>
      let filename := join referencesDir name in
      bind (parseFile filename) (fun content =>
        loadReferences_loop referencesDir names'
          (references ++ [mkEntry filename content]))
  end.

Definition loadReferences (serviceDirectory : path) (references : list entry)
    : result (list entry) :=
  let referencesDir := join serviceDirectory "references" in
  if negb (existsSync referencesDir) then Ok references
  else
    bind (readdirSync referencesDir) (fun names =>
      loadReferences_loop referencesDir
        (filter (fun name => (extname name =? ".json")%string) names)
        references).

(** The [while (queue.length)] loop of [loadSchemas]; [None] when [fuel]
    iterations were not enough to empty the queue. *)
Fixpoint loadSchemas_loop (fuel : nat) (queue : list path) (schemas : list entry)
    : option (result (list entry)) :=
  match queue with
  | [] => Some (Ok schemas)
  | filename :: queue' =>
      match fuel with
      | O => None
      | S fuel' =>
          match isDirectory filename with
          | Throw e => Some (Throw e)
          | Ok true =>
              match readdirSync filename with
              | Throw e => Some (Throw e)
              | Ok dentries =>
                  loadSchemas_loop fuel' (queue' ++ map (join filename) dentries)
                    schemas
              end
          | Ok false =>
              match parseFile filename with
              | Throw e => Some (Throw e)
              | Ok c =>
                  loadSchemas_loop fuel' queue'
                    (schemas ++ [mkEntry filename c])
              end
          end
      end
  end.

Definition loadSchemas (fuel : nat) (serviceDirectory : path)
    (schemas : list entry) : option (result (list entry)) :=
  let schemasDir := join serviceDirectory "schemas" in
  if negb (existsSync schemasDir) then Some (Ok schemas)
  else loadSchemas_loop fuel [schemasDir] schemas.

(** The callback of [forEach] in [load], threading the two arrays. *)
Definition load_entry (fuel : nat) (directory : path) (dentry : string)
    (acc : list entry * list entry)
    : option (result (list entry * list entry)) :=
  if startsWith dentry "." then Some (Ok acc)
  else
    let filename := join directory dentry in
    match isDirectory filename with
    | Throw e => Some (Throw e)
    | Ok false => Some (Throw (NotADirectory filename))
    | Ok true =>
        match loadReferences filename (fst acc) with
        | Throw e => Some (Throw e)
        | Ok references =>
            match loadSchemas fuel filename (snd acc) with
            | None => None
            | Some (Throw e) => Some (Throw e)
            | Some (Ok schemas) => Some (Ok (references, schemas))
            end
        end
    end.

Fixpoint forEach (fuel : nat) (directory : path) (dentries : list string)
    (acc : list entry * list entry)
    : option (result (list entry * list entry)) :=
  match dentries with
  | [] => Some (Ok acc)
  | dentry :: rest =>
      match load_entry fuel directory dentry acc with
      | None => None
      | Some (Throw e) => Some (Throw e)
      | Some (Ok acc') => forEach fuel directory rest acc'
      end
  end.

(** [load({ directory })]: the pair is [{ references, schemas }]. *)
Definition load (fuel : nat) : option (result (list entry * list entry)) :=
  match readdirSync [] with
  | Throw e => Some (Throw e)
  | Ok dentries => forEach fuel [] dentries ([], [])
  end.

(** What is left to do for a queue. *)
Definition pending (queue : list path) : nat :=
  list_sum (map (fun p => match lookup fs p with
                          | Some n => weight n
                          | None => 1
                          end) queue).

(** What one run of the loop of [loadSchemas] adds, when it returns: exactly
    the readable, well-formed files at or below the queued paths. *)
Definition loaded_from (queue : list path) (new : list entry) : Prop :=
  (forall e, In e new ->
     exists q0 rest data,
       In q0 queue /\ filename e = q0 ++ rest
       /\ lookup fs (filename e) = Some (File (Some data))
       /\ JSON_parse data = Some (content e))
  /\ (forall q0 rest d,
        In q0 queue -> lookup fs (q0 ++ rest) = Some (File d) ->
        exists data c,
          d = Some data /\ JSON_parse data = Some c
          /\ In (mkEntry (q0 ++ rest) c) new).

(** What the loop of [loadReferences] adds over [names], when it returns. *)
Definition references_from (referencesDir : path) (names : list string)
    (new : list entry) : Prop :=
  (forall e, In e new ->
     exists name data,
       In name names /\ filename e = join referencesDir name
       /\ lookup fs (filename e) = Some (File (Some data))
       /\ JSON_parse data = Some (content e))
  /\ (forall name, In name names ->
        exists data c,
          lookup fs (join referencesDir name) = Some (File (Some data))
          /\ JSON_parse data = Some c
          /\ In (mkEntry (join referencesDir name) c) new).

(** What [forEach] adds over a list of top-level names, when it returns. *)
Definition services_loaded (dentries : list string)
    (newr news : list entry) : Prop :=
  (forall svc, In svc dentries -> startsWith svc "." = false ->
     exists es, lookup fs [svc] = Some (Dir es))
  /\ (forall e, In e newr ->
        exists svc name data,
          In svc dentries /\ startsWith svc "." = false
          /\ filename e = [svc; "references"; name]
          /\ extname name = ".json"%string
          /\ lookup fs (filename e) = Some (File (Some data))
          /\ JSON_parse data = Some (content e))
  /\ (forall svc name n,
        In svc dentries -> startsWith svc "." = false ->
        extname name = ".json"%string ->
        lookup fs [svc; "references"; name] = Some n ->
        exists data c,
          n = File (Some data) /\ JSON_parse data = Some c
          /\ In (mkEntry [svc; "references"; name] c) newr)
  /\ (forall e, In e news ->
        exists svc rest data,
          In svc dentries /\ startsWith svc "." = false
          /\ filename e = svc :: "schemas" :: rest
          /\ lookup fs (filename e) = Some (File (Some data))
          /\ JSON_parse data = Some (content e))
  /\ (forall svc rest d,
        In svc dentries -> startsWith svc "." = false ->
        lookup fs (svc :: "schemas" :: rest) = Some (File d) ->
        exists data c,
          d = Some data /\ JSON_parse data = Some c
          /\ In (mkEntry (svc :: "schemas" :: rest) c) news).

(** [a] is listed no deeper than [b]. *)
Definition deeper (a b : entry) : Prop :=
  length (filename a) <= length (filename b).

End Load.

(** An entry of a directory whose name does not start with a dot. *)
Definition visible (e : string * node) : bool := negb (startsWith (fst e) ".").

(** No directory lists a name twice. *)
Fixpoint distinct (names : list string) : bool :=
  match names with
  | [] => true
  | d :: rest => negb (existsb (String.eqb d) rest) && distinct rest
  end.

Fixpoint well_formed (n : node) : bool :=
  match n with
  | File _ => true
  | Dir es =>
      distinct (map fst es) && forallb (fun e => well_formed (snd e)) es
  end.

Definition is_prefix (a b : path) : Prop := exists r, b = a ++ r.

(** Neither path is at or below the other. *)
Definition apart (a b : path) : Prop := ~ is_prefix a b /\ ~ is_prefix b a.

(** For the examples: [path.extname] on a name without separators (the part
    from the last dot on, unless that dot starts the name or the name is
    [..]), a parser that rejects one text, and a small tree. *)
Fixpoint from_last_dot (s : string) : option string :=
  match s with
  | EmptyString => None
  | String c r =>
      match from_last_dot r with
      | Some x => Some x
      | None => if Ascii.eqb c "." then Some s else None
      end
  end.

Definition extname_of_name (s : string) : string :=
  match s with
  | EmptyString => EmptyString
  | String _ r =>
      match from_last_dot r with
      | Some x => if (s =? "..")%string then EmptyString else x
      | None => EmptyString
      end
  end.

Definition example_parse (s : string) : option string :=
  if (s =? "not json")%string then None else Some s.

Definition example_tree : node :=
  Dir [ (".git", File (Some "not json"));
        ("auth",
         Dir [ ("references",
                Dir [ ("api.json", File (Some "{api}"));
                      ("notes.txt", File (Some "not json")) ]);
               ("schemas",
                Dir [ ("v1", Dir [ ("a.yml", File (Some "{a}")) ]);
                      ("b.json", File (Some "{b}")) ]) ]);
        ("queue", Dir [ ("references", Dir []) ]) ].

End Loader.

(** * The RDP feature of generic-worker ([rdp_windows.go]) *)

Module RdpFeature.

(** [task.Definition], [task.Payload] and [TaskRun], as far as the feature
    reads them. *)
Record TaskDefinition : Type := mkTaskDefinition {
  ProvisionerID : string;
  WorkerType : string
}.

Record GenericWorkerPayload : Type := mkPayload {
  RdpInfo : string
}.

Record TaskRun : Type := mkTaskRun {
  Definition_ : TaskDefinition;
  Payload : GenericWorkerPayload
}.

(** [scopes.Required]: a list of alternatives, each a list of scopes. *)
Definition Required : Type := list (list string).

(** [func (feature *RDPFeature) Name() string] *)
Definition Name : string := "RDP".

(** [func (feature *RDPFeature) IsEnabled(task *TaskRun) bool] *)
Definition IsEnabled (task : TaskRun) : bool :=
  negb (RdpInfo (Payload task) =? EmptyString).

(** [func (l *RDPTask) RequiredScopes() scopes.Required] *)
Definition RequiredScopes (task : TaskRun) : Required :=
  [ [ "generic-worker:allow-rdp:" ++ ProvisionerID (Definition_ task) ++ "/"
        ++ WorkerType (Definition_ task) ] ].

(** [func (l *RDPTask) ReservedArtifacts() []string] *)
Definition ReservedArtifacts (task : TaskRun) : list string :=
  [ RdpInfo (Payload task) ].

(** Whether a string holds the byte [c]. *)
Fixpoint has_byte (c : ascii) (s : string) : bool :=
  match s with
  | EmptyString => false
  | String a s' => Ascii.eqb a c || has_byte c s'
  end.

End RdpFeature.

(** * Fakes of the notify test helper *)

Module NotifyHelper.

Import JS.
Local Open Scope list_scope.

(** [String.prototype.includes], and [RegExp.prototype.test] for a pattern of
    literal characters: whether [needle] occurs in [s]. *)
Fixpoint includes (s needle : jsstring) : bool :=
  starts_with needle s
  || match s with
     | [] => false
     | _ :: s' => includes s' needle
     end.

(** The fake denier: [isDenied(notificationType, notificationAddress)] is
    [/denied/.test(notificationAddress)]. *)
Definition isDenied (notificationType notificationAddress : jsstring) : bool :=
  includes notificationAddress (lit "denied").

(** An [Error] with the [errcode] a Matrix client sets. *)
Record MatrixError : Type := mkMatrixError {
  message : jsstring;
  errcode : jsstring
}.

(** The function [fakeMatrixSend] wraps in a [sinon.fake]: it throws for a
    rejected room and returns [undefined] otherwise. *)
Definition fakeMatrixSend (roomId : jsstring) : option MatrixError :=
  if includes roomId (lit "rejected")
  then Some (mkMatrixError (lit "rejected this room") (lit "M_FORBIDDEN"))
  else None.

(** One element of [MockSES.emails]. *)
Record Email : Type := mkEmail {
  recipients : list jsstring;
  data : jsstring
}.

(** The argument of [sendRawEmail]: [Destinations] and [RawMessage.Data]. *)
Record RawEmail : Type := mkRawEmail {
  Destinations : list jsstring;
  RawMessage_Data : jsstring
}.

(** [class MockSES]: the state is the [emails] array. *)
Definition MockSES : Type := list Email.

Definition new_MockSES : MockSES := [].

(** [sendRawEmail(c).promise()] *)
Definition sendRawEmail (ses : MockSES) (c : RawEmail) : MockSES :=
  ses ++ [mkEmail (Destinations c) (RawMessage_Data c)].

Definition reset (ses : MockSES) : MockSES := [].

(** [Array.prototype.pop]: the last element, if any, and the rest. *)
Fixpoint pop {A : Type} (l : list A) : option A * list A :=
  match l with
  | [] => (None, [])
  | x :: rest =>
      match rest with
      | [] => (Some x, [])
      | _ :: _ => let (last, front) := pop rest in (last, x :: front)
      end
  end.

(** [checkEmails(check)] with the mock: [None] when the assertion fails;
    otherwise the email handed to [check] and the mock afterwards. *)
Definition checkEmails (ses : MockSES) : option (option Email * MockSES) :=
  if (length ses =? 1)%nat then Some (pop ses) else None.

End NotifyHelper.

(** * The fake queue of the built-in-workers test helper *)

Module BuiltInWorkersHelper.

Import JS.
Local Open Scope list_scope.

Record Credentials : Type := mkCredentials {
  clientId : jsstring;
  accessToken : jsstring
}.

Section ClaimWork.

(** What a task of a work response holds besides its credentials. *)
Variable task_body : Type.

Record TaskClaim : Type := mkTaskClaim {
  body : task_body;
  credentials : option Credentials
}.

(** One element of [claimableWork]. *)
Record Work : Type := mkWork {
  tasks : list TaskClaim;
  workerGroup : option jsstring;
  workerId : option jsstring
}.

(** The [payload] argument of [claimWork]. *)
Record ClaimPayload : Type := mkClaimPayload {
  payload_workerGroup : jsstring;
  payload_workerId : jsstring
}.

Inductive thrown : Type :=
| AssertionError
| TypeError.

Fixpoint eqb_jsstring (a b : jsstring) : bool :=
  match a, b with
  | [], [] => true
  | x :: a', y :: b' => (x =? y)%N && eqb_jsstring a' b'
  | _, _ => false
  end.

(** [claimWork(taskQueueId, payload)] called by a client whose credentials
    carry [caller]: the work handed out and the [claimableWork] array
    afterwards, or what is thrown. *)
Definition claimWork (caller : jsstring) (claimableWork : list Work)
    (payload : ClaimPayload) : thrown + Work * list Work :=
  if negb (eqb_jsstring caller (lit "built-in-workers")) then inl AssertionError
  else
    match NotifyHelper.pop claimableWork with
    | (None, _) => inl TypeError
    | (Some work, rest) =>
        inr (mkWork
               (map (fun task =>
                       mkTaskClaim (body task)
                         (Some (mkCredentials (lit "task-creds") (lit "none"))))
                  (tasks work))
               (Some (payload_workerGroup payload))
               (Some (payload_workerId payload)),
             rest)
    end.

End ClaimWork.

End BuiltInWorkersHelper.

(** * Properties of the error taxonomy *)

Import Whclient.

(** The setters commute with the projections the way a composite literal
    needs them to. *)
Lemma Temporary_set_errString (s : string) (c : clientError) :
  Temporary (set_errString s c) = Temporary c.
Proof. reflexivity. Qed.

Lemma Timeout_set_errString (s : string) (c : clientError) :
  Timeout (set_errString s c) = Timeout c.
Proof. reflexivity. Qed.

Lemma Error_set_errString (s : string) (c : clientError) :
  Error (set_errString s c) = s.
Proof. reflexivity. Qed.

Lemma clientError_eqb_eq (a b : clientError) :
  clientError_eqb a b = true <-> a = b.
Proof.
  destruct a as [sa ra ta], b as [sb rb tb]; unfold clientError_eqb; cbn.
  rewrite !andb_true_iff, String.eqb_eq, !Bool.eqb_true_iff.
  split.
  - intros [[Hs Hr] Ht]; congruence.
  - intros H; injection H as -> -> ->; auto.
Qed.

(** Dispatch by name agrees with the three methods, whatever the value. *)
Lemma call_Error (c : clientError) : call c "Error" = Some (VString (Error c)).
Proof. reflexivity. Qed.

Lemma call_Temporary (c : clientError) :
  call c "Temporary" = Some (VBool (Temporary c)).
Proof. reflexivity. Qed.

Lemma call_Timeout (c : clientError) :
  call c "Timeout" = Some (VBool (Timeout c)).
Proof. reflexivity. Qed.

(** A name outside the method set is not callable: [call] is partial. *)
Lemma call_unknown : call ErrBadToken "Unwrap" = None.
Proof. reflexivity. Qed.

(** The method set is exactly what dispatch answers to. *)
Lemma call_defined_iff (c : clientError) (m : string) :
  call c m <> None <-> In m (map fst clientError_methods).
Proof.
  unfold call; cbn.
  destruct (String.eqb_spec m "Error") as [->|HE].
  { split; [auto | discriminate]. }
  destruct (String.eqb_spec m "Temporary") as [->|HT].
  { split; [auto | discriminate]. }
  destruct (String.eqb_spec m "Timeout") as [->|HO].
  { split; [auto | discriminate]. }
  split; [congruence | ].
  intros [H | [H | [H | []]]]; congruence.
Qed.

Lemma clientError_implements_net_Error :
  implements clientError_methods net_Error_methods = true.
Proof. reflexivity. Qed.

(** ** The (temporary, timeout) table of the seven values *)

Lemma classify_exported :
  map classify exported_errors =
  [ (false, true); (false, false); (false, false); (true, false);
    (false, false); (false, false); (false, false) ].
Proof. reflexivity. Qed.

(** The kinds of the taxonomy and the exported values are the same seven
    things, listed in different orders. *)
Lemma exported_errors_of_kinds :
  forall e, In e exported_errors <-> In e (map error_of_kind all_kinds).
Proof.
  intros e; cbn; intuition auto.
Qed.

Ltac each_exported :=
  unfold exported_errors; repeat (apply Forall_cons); try apply Forall_nil.

(** C1: each of the seven error values of the package exposes a
    [Temporary() bool] and a [Timeout() bool] method: called by name, both
    are defined on the value and return a boolean, the one the method
    computes; and the struct's method set satisfies [net.Error]. *)
Theorem exported_errors_expose_predicates :
  length exported_errors = 7
  /\ implements clientError_methods net_Error_methods = true
  /\ Forall
       (fun e =>
          (exists b : bool, call e "Temporary" = Some (VBool b)
                            /\ b = iface_Temporary e)
          /\ (exists b : bool, call e "Timeout" = Some (VBool b)
                               /\ b = iface_Timeout e))
       exported_errors.
Proof.
  split; [reflexivity | split; [reflexivity | ]].
  each_exported; (split; eexists; split; reflexivity).
Qed.

(** C2: [ErrClientReconnecting] is temporary and not a timeout, also as a
    caller holding it as a [net.Error] sees it, so a caller that retries when
    [Temporary()] is true retries on it. *)
Theorem ErrClientReconnecting_temporary :
  Temporary ErrClientReconnecting = true
  /\ Timeout ErrClientReconnecting = false
  /\ iface_Temporary ErrClientReconnecting = true
  /\ call ErrClientReconnecting "Temporary" = Some (VBool true).
Proof. repeat split. Qed.

(** C3: [ErrRetryTimedOut] is a timeout and not temporary, and every other
    exported value answers [false] to [Timeout()]. *)
Theorem ErrRetryTimedOut_timeout :
  Timeout ErrRetryTimedOut = true
  /\ Temporary ErrRetryTimedOut = false
  /\ Forall (fun e => e <> ErrRetryTimedOut -> Timeout e = false)
       exported_errors.
Proof.
  split; [reflexivity | split; [reflexivity | ]].
  each_exported; intros H; try reflexivity.
  now elim H.
Qed.

(** C4: among the seven values, [ErrClientReconnecting] is the only one
    whose [Temporary()] is true, [ErrRetryTimedOut] the only one whose
    [Timeout()] is true, none has both true, and the pair of predicates of
    each kind's value is the pair the taxonomy table gives the kind. *)
Theorem taxonomy_classification :
  Forall (fun e => Temporary e = true <-> e = ErrClientReconnecting)
    exported_errors
  /\ Forall (fun e => Timeout e = true <-> e = ErrRetryTimedOut)
       exported_errors
  /\ Forall (fun e => Temporary e && Timeout e = false) exported_errors
  /\ (forall k : Kind, classify (error_of_kind k) = spec_disposition k).
Proof.
  repeat split; try (each_exported; try reflexivity);
    try (split; intros H; (reflexivity || discriminate H)).
  intros k; destruct k; reflexivity.
Qed.

(** C5: [ErrBadToken] is neither temporary nor a timeout. *)
Theorem ErrBadToken_permanent :
  Temporary ErrBadToken = false
  /\ Timeout ErrBadToken = false
  /\ classify ErrBadToken = (false, false).
Proof. repeat split. Qed.

(** C6: [ErrClientClosed] is neither temporary nor a timeout: it is
    permanent. *)
Theorem ErrClientClosed_permanent :
  Temporary ErrClientClosed = false
  /\ Timeout ErrClientClosed = false
  /\ classify ErrClientClosed = (false, false).
Proof. repeat split. Qed.

(** C7: the two construction-time validation errors,
    [ErrAuthorizerNotProvided] and [ErrTLSConfigRequired], are neither
    temporary nor a timeout. *)
Theorem construction_errors_permanent :
  (Temporary ErrAuthorizerNotProvided = false
   /\ Timeout ErrAuthorizerNotProvided = false)
  /\ (Temporary ErrTLSConfigRequired = false
      /\ Timeout ErrTLSConfigRequired = false).
Proof. repeat split. Qed.

(** C8: for every [clientError] value, [Temporary()] is the [reconnect]
    field and [Timeout()] is the [timeout] field; each predicate is a
    function of its own field alone, so two evaluations on values that agree
    on that field (in particular on the same value) agree. *)
Theorem predicates_are_projections :
  forall c : clientError,
    Temporary c = reconnect c
    /\ Timeout c = timeout c
    /\ (forall c' : clientError,
          reconnect c' = reconnect c -> Temporary c' = Temporary c)
    /\ (forall c' : clientError,
          timeout c' = timeout c -> Timeout c' = Timeout c)
    /\ call c "Temporary" = Some (VBool (reconnect c))
    /\ call c "Timeout" = Some (VBool (timeout c)).
Proof.
  intros c; repeat split; auto.
Qed.

(** C10: [Error()] returns the [errString] field of any [clientError]; the
    seven exported values carry the seven listed messages, which are
    non-empty and pairwise distinct, so two kinds with the same message are
    the same kind. *)
Theorem error_messages_distinct :
  (forall c : clientError, Error c = errString c)
  /\ map Error exported_errors =
     [ "retry timed out"; "bad auth token"; "retry failed";
       "client reconnecting"; "client closed";
       "authorizer function was not provided to client";
       "tls config must be provided to use secure connections" ]
  /\ Forall (fun e => Error e <> EmptyString) exported_errors
  /\ NoDup (map Error exported_errors)
  /\ (forall k1 k2 : Kind,
        Error (error_of_kind k1) = Error (error_of_kind k2) -> k1 = k2).
Proof.
  split; [reflexivity | split; [reflexivity | split; [ | split]]].
  - each_exported; discriminate.
  - cbn.
    repeat (apply NoDup_cons;
            [ cbn; intros H;
              repeat (destruct H as [H | H]; [discriminate H | ]); exact H
            | ]).
    apply NoDup_nil.
  - intros k1 k2; destruct k1, k2; cbn; intros H;
      (reflexivity || discriminate H).
Qed.

(** * Properties of [close()] *)

Import Listener.

Lemma close_state (c : Client) : state (after (close c)) = Closed.
Proof. reflexivity. Qed.

Lemma close_times_S (n : nat) (c : Client) :
  close_times (S n) c = after (close c).
Proof.
  revert c; induction n as [| n IH]; intros c; [reflexivity | ].
  change (close_times (S (S n)) c) with (close_times (S n) (after (close c))).
  rewrite IH; reflexivity.
Qed.

(** C9: after [close()] has been called once or more on any client in any
    state, a further call returns without an error, is not left suspended,
    wakes nothing, and leaves the client as it was: Closed. *)
Theorem close_idempotent :
  forall (c : Client) (n : nat),
    state (close_times (S n) c) = Closed
    /\ result (close (close_times (S n) c)) = Returned None
    /\ result (close (close_times (S n) c)) <> Blocked
    /\ woken (close (close_times (S n) c)) = []
    /\ after (close (close_times (S n) c)) = close_times (S n) c.
Proof.
  intros c n; rewrite close_times_S.
  repeat split; discriminate.
Qed.

(** * Properties of the README generator *)

Module DbVersionsFacts.

Import JS DbVersions.
Local Open Scope list_scope.
Local Open Scope nat_scope.

Lemma starts_with_iff (p s : jsstring) :
  starts_with p s = true <-> exists t, s = p ++ t.
Proof.
  revert s; induction p as [| a p IH]; intros s; cbn.
  - split; [intros _; now exists s | reflexivity].
  - destruct s as [| b s]; [split; [discriminate | intros [t H]; discriminate H] | ].
    rewrite andb_true_iff, N.eqb_eq, IH; split.
    + intros [-> [t ->]]; now exists t.
    + intros [t H]; injection H as -> ->; split; [reflexivity | now exists t].
Qed.

Lemma starts_with_app (p t : jsstring) : starts_with p (p ++ t) = true.
Proof. apply starts_with_iff; now exists t. Qed.

Lemma END_nonempty : starts_with END [] = false.
Proof. reflexivity. Qed.

Lemma star_match_nil_inv mid post : ~ star_match [] mid post.
Proof.
  intros [H _]. destruct mid; [| discriminate H].
  assert (E : starts_with END [] = true) by (apply starts_with_iff; now exists post).
  rewrite END_nonempty in E; discriminate E.
Qed.

Lemma star_match_cons c s mid post :
  star_match (c :: s) mid post <->
  (mid = [] /\ c :: s = END ++ post)
  \/ (exists mid', mid = c :: mid' /\ dot_or_LF c = true /\ star_match s mid' post).
Proof.
  unfold star_match; split.
  - intros [H Hok]; destruct mid as [| m mid'].
    + left; auto.
    + right; cbn in H; injection H as <- ->; cbn in Hok.
      apply andb_true_iff in Hok as [Hc Hm]; exists mid'; auto.
  - intros [[-> H] | [mid' [-> [Hc [-> Hm]]]]].
    + split; [exact H | reflexivity].
    + split; [reflexivity | cbn; now rewrite Hc, Hm].
Qed.

Lemma star_END_spec (s : jsstring) :
  match star_END s with
  | Some n =>
      exists mid post,
        star_match s mid post /\ n = length mid + length END
        /\ forall mid1 post1, star_match s mid1 post1 -> length mid1 <= length mid
  | None => forall mid post, ~ star_match s mid post
  end.
Proof.
  induction s as [| c s IH].
  - cbn [star_END]; rewrite END_nonempty; intros mid post; apply star_match_nil_inv.
  - cbn [star_END].
    assert (Hhere : forall (Hno : forall mid' post, dot_or_LF c = true -> ~ star_match s mid' post),
      match (if starts_with END (c :: s) then Some (length END) else None) with
      | Some n => exists mid post, star_match (c :: s) mid post /\ n = length mid + length END
                /\ forall mid1 post1, star_match (c :: s) mid1 post1 -> length mid1 <= length mid
      | None => forall mid post, ~ star_match (c :: s) mid post
      end).
    { intros Hno. destruct (starts_with END (c :: s)) eqn:E.
      - apply starts_with_iff in E as [post E].
        exists [], post; split; [split; [exact E | reflexivity] | split; [reflexivity | ]].
        intros mid1 post1 H1; apply star_match_cons in H1 as [[-> _] | [m' [-> [Hc H1]]]];
          [cbn; lia | exfalso; exact (Hno _ _ Hc H1)].
      - intros mid post H; apply star_match_cons in H as [[-> H] | [m' [-> [Hc H1]]]].
        + assert (E' : starts_with END (c :: s) = true) by (apply starts_with_iff; now exists post).
          rewrite E in E'; discriminate E'.
        + exact (Hno _ _ Hc H1). }
    destruct (dot_or_LF c) eqn:Hc.
    + destruct (star_END s) as [k |].
      * destruct IH as [mid [post [Hm [-> Hmax]]]].
        exists (c :: mid), post; split; [| split; [reflexivity | ]].
        -- apply star_match_cons; right; exists mid; auto.
        -- intros mid1 post1 H1; apply star_match_cons in H1 as [[-> _] | [m' [-> [_ H1]]]];
             cbn; [lia | specialize (Hmax _ _ H1); lia].
      * apply Hhere; intros mid' post _; apply IH.
    + apply Hhere; intros mid' post Hc'; discriminate Hc'.
Qed.

Lemma skipn_app_length {A} (l1 l2 : list A) : skipn (length l1) (l1 ++ l2) = l2.
Proof. induction l1; cbn; auto. Qed.

Lemma firstn_app_length {A} (l1 l2 : list A) : firstn (length l1) (l1 ++ l2) = l1.
Proof. induction l1; cbn; congruence. Qed.

Lemma match_here_spec (s : jsstring) :
  match match_here s with
  | Some n =>
      exists mid post,
        full_match s mid post /\ n = length BEGIN + (length mid + length END)
        /\ forall mid1 post1, full_match s mid1 post1 -> length mid1 <= length mid
  | None => forall mid post, ~ full_match s mid post
  end.
Proof.
  unfold match_here. destruct (starts_with BEGIN s) eqn:E.
  - apply starts_with_iff in E as [t ->]. rewrite skipn_app_length.
    pose proof (star_END_spec t) as H. destruct (star_END t) as [k |].
    + destruct H as [mid [post [[-> Hok] [-> Hmax]]]].
      exists mid, post; split; [split; auto | split; [reflexivity | ]].
      intros mid1 post1 [H1 Hok1]; apply app_inv_head in H1.
      apply (Hmax mid1 post1); split; auto.
    + intros mid post [H1 Hok1]; apply app_inv_head in H1.
      apply (H mid post); split; auto.
  - intros mid post [-> _]. rewrite starts_with_app in E; discriminate E.
Qed.

Lemma exec_spec (s : jsstring) :
  match exec s with
  | Some (i, len) =>
      exists pre mid post,
        first_match s pre mid post
        /\ i = length pre /\ len = length BEGIN + (length mid + length END)
  | None =>
      forall pre mid post,
        s = pre ++ BEGIN ++ mid ++ END ++ post -> forallb dot_or_LF mid <> true
  end.
Proof.
  induction s as [| c s IH]; cbn [exec];
    pose proof (match_here_spec) as Hh.
  - specialize (Hh []). destruct (match_here []) as [n |].
    + destruct Hh as [mid [post [[H Hok] [-> Hmax]]]].
      exists [], mid, post; split; [| split; reflexivity].
      split; [exact H | split; [exact Hok | split]].
      * intros; cbn; lia.
      * intros mid1 post1 H1 Hok1; apply (Hmax mid1 post1); split; [| exact Hok1].
        rewrite H; f_equal; exact H1.
    + intros pre mid post H Hok. destruct pre; [| discriminate H].
      apply (Hh mid post); split; auto.
  - specialize (Hh (c :: s)). destruct (match_here (c :: s)) as [n |].
    + destruct Hh as [mid [post [[H Hok] [-> Hmax]]]].
      exists [], mid, post; split; [| split; reflexivity].
      split; [exact H | split; [exact Hok | split]].
      * intros; cbn; lia.
      * intros mid1 post1 H1 Hok1; apply (Hmax mid1 post1); split; [| exact Hok1].
        rewrite H; f_equal; exact H1.
    + destruct (exec s) as [[i len] |].
      * destruct IH as [pre [mid [post [[H [Hok [Hleft Hmax]]] [-> ->]]]]].
        exists (c :: pre), mid, post; split; [| split; reflexivity].
        split; [cbn; now rewrite H | split; [exact Hok | split; [| exact Hmax]]].
        intros pre1 mid1 post1 H1 Hok1. destruct pre1 as [| c1 pre1].
        -- exfalso; apply (Hh mid1 post1); split; auto.
        -- cbn in H1; injection H1 as _ H1. rewrite H in H1.
           specialize (Hleft pre1 mid1 post1). rewrite H in Hleft.
           specialize (Hleft H1 Hok1); cbn; lia.
      * intros pre mid post H Hok. destruct pre as [| c1 pre].
        -- apply (Hh mid post); split; auto.
        -- cbn in H; injection H as _ H. exact (IH pre mid post H Hok).
Qed.

Lemma app_same_length_inv {A} (a1 a2 b1 b2 : list A) :
  a1 ++ b1 = a2 ++ b2 -> length a1 = length a2 -> a1 = a2 /\ b1 = b2.
Proof.
  revert a2; induction a1 as [| x a1 IH]; intros [| y a2] H L; cbn in *;
    try discriminate L; auto.
  injection H as -> H; injection L as L. destruct (IH _ H L) as [-> ->]; auto.
Qed.

Lemma first_match_exec (s pre mid post : jsstring) :
  first_match s pre mid post ->
  exec s = Some (length pre, length BEGIN + (length mid + length END)).
Proof.
  intros [H [Hok [Hleft Hmax]]]. pose proof (exec_spec s) as He.
  destruct (exec s) as [[i len] |].
  - destruct He as [pre0 [mid0 [post0 [[H0 [Hok0 [Hleft0 Hmax0]]] [-> ->]]]]].
    assert (Lp : length pre0 = length pre).
    { specialize (Hleft _ _ _ H0 Hok0); specialize (Hleft0 _ _ _ H Hok); lia. }
    rewrite H in H0. destruct (app_same_length_inv _ _ _ _ H0 (eq_sym Lp)) as [-> H1].
    apply app_inv_head in H1.
    assert (Lm : length mid0 = length mid).
    { specialize (Hmax _ _ H1 Hok0); specialize (Hmax0 _ _ (eq_sym H1) Hok); lia. }
    now rewrite Lm.
  - exfalso; exact (He _ _ _ H Hok).
Qed.

Lemma app_eq_app_le {A} (x1 x2 y1 y2 : list A) :
  x1 ++ x2 = y1 ++ y2 -> length y1 <= length x1 ->
  exists l, x1 = y1 ++ l /\ y2 = l ++ x2.
Proof.
  revert y1; induction x1 as [| a x1 IH]; intros [| b y1] H L; cbn in *.
  - now exists [].
  - lia.
  - exists (a :: x1); auto.
  - injection H as -> H. destruct (IH y1 H ltac:(lia)) as [l [-> ->]].
    now exists l.
Qed.

Lemma forallb_app_iff {A} (f : A -> bool) (l1 l2 : list A) :
  forallb f (l1 ++ l2) = true <-> forallb f l1 = true /\ forallb f l2 = true.
Proof. rewrite forallb_app, andb_true_iff; reflexivity. Qed.

Lemma END_dot_or_LF : forallb dot_or_LF END = true.
Proof. reflexivity. Qed.

Lemma END_no_LF : existsb (N.eqb LF) END = false.
Proof. reflexivity. Qed.

Lemma END_no_border : existsb (N.eqb 60) (tl END) = false.
Proof. reflexivity. Qed.

Lemma END_head : exists e, END = 60%N :: e.
Proof. eexists; reflexivity. Qed.

Lemma END_length_pos : 0 < length END.
Proof. cbn; lia. Qed.

Lemma not_in_existsb (c : N) (l : jsstring) :
  existsb (N.eqb c) l = false -> ~ In c l.
Proof.
  intros E H. assert (existsb (N.eqb c) l = true).
  { apply existsb_exists; exists c; split; [exact H | apply N.eqb_refl]. }
  congruence.
Qed.

(** Replacing what the star took by a line-feed-bracketed text that the star
    takes whole keeps the match where it was. *)
Lemma first_match_new_block (pre mid post T : jsstring) :
  first_match (pre ++ BEGIN ++ mid ++ END ++ post) pre mid post ->
  forallb dot_or_LF T = true ->
  first_match (pre ++ BEGIN ++ (LF :: T ++ [LF]) ++ END ++ post)
    pre (LF :: T ++ [LF]) post.
Proof.
  intros [_ [Hok [Hleft Hmax]]] HT.
  assert (Hmid' : forallb dot_or_LF (LF :: T ++ [LF]) = true).
  { cbn [forallb]. rewrite forallb_app, HT; reflexivity. }
  split; [reflexivity | split; [exact Hmid' | split]].
  - intros pre1 mid1 post1 H Hok1.
    destruct (Nat.le_gt_cases (length pre) (length pre1)) as [L | L]; [exact L | exfalso].
    destruct (app_eq_app_le _ _ _ _ H ltac:(lia)) as [pre2 [-> H2]].
    rewrite length_app in L.
    (* pre2 ++ BEGIN = BEGIN ++ x *)
    assert (Hx : exists x, pre2 ++ BEGIN = BEGIN ++ x
                 /\ mid1 ++ END ++ post1 = x ++ (LF :: T ++ [LF]) ++ END ++ post).
    { assert (H3 : (pre2 ++ BEGIN) ++ (LF :: T ++ [LF]) ++ END ++ post
                   = BEGIN ++ mid1 ++ END ++ post1)
        by (rewrite <- app_assoc; symmetry; exact H2).
      destruct (app_eq_app_le _ _ _ _ H3) as [x [E1 E2]];
        [rewrite length_app; lia | exists x; auto]. }
    destruct Hx as [x [Ex Hrest]].
    assert (Horig : forall m2 p2, forallb dot_or_LF m2 = true ->
              x ++ mid ++ END ++ post = m2 ++ END ++ p2 -> False).
    { intros m2 p2 Hm2 E.
      assert (E' : (pre1 ++ pre2) ++ BEGIN ++ mid ++ END ++ post
                   = pre1 ++ BEGIN ++ m2 ++ END ++ p2).
      { rewrite <- (app_assoc pre1). f_equal.
        rewrite (app_assoc pre2), Ex, <- app_assoc. f_equal. exact E. }
      specialize (Hleft _ _ _ E' Hm2). rewrite length_app in Hleft. lia. }
    destruct (Nat.le_gt_cases (length x) (length mid1)) as [Lx | Lx].
    + (* the star of the new match runs through x *)
      symmetry in Hrest.
      destruct (app_eq_app_le _ _ _ _ (eq_sym Hrest) Lx) as [l [-> _]].
      apply forallb_app_iff in Hok1 as [Hx _].
      apply (Horig (x ++ mid) post).
      * apply forallb_app_iff; auto.
      * now rewrite <- app_assoc.
    + (* END of the new match starts inside x *)
      destruct (app_eq_app_le _ _ _ _ (eq_sym Hrest) ltac:(lia)) as [l [-> Hl]].
      destruct (Nat.le_gt_cases (length END) (length l)) as [Ll | Ll].
      * destruct (app_eq_app_le _ _ _ _ (eq_sym Hl) Ll) as [l3 [-> _]].
        apply (Horig mid1 (l3 ++ mid ++ END ++ post) Hok1).
        now rewrite <- !app_assoc.
      * destruct (app_eq_app_le _ _ _ _ Hl ltac:(lia)) as [l2 [E2 E3]].
        destruct l2 as [| b l2].
        { rewrite app_nil_r in E2; rewrite E2 in Ll; lia. }
        cbn in E3; injection E3 as <- _.
        apply (not_in_existsb _ _ END_no_LF).
        rewrite E2; apply in_or_app; right; left; reflexivity.
  - intros mid1 post1 H Hok1.
    destruct (Nat.le_gt_cases (length mid1) (length (LF :: T ++ [LF]))) as [L | L];
      [exact L | exfalso].
    destruct (app_eq_app_le _ _ _ _ (eq_sym H) ltac:(lia)) as [l [-> Hl]].
    rewrite length_app in L.
    apply forallb_app_iff in Hok1 as [_ Hokl].
    destruct (Nat.le_gt_cases (length END) (length l)) as [Ll | Ll].
    + destruct (app_eq_app_le _ _ _ _ (eq_sym Hl) Ll) as [l3 [-> E3]].
      apply forallb_app_iff in Hokl as [_ Hl3].
      assert (E : mid ++ END ++ post = (mid ++ END ++ l3) ++ END ++ post1).
      { rewrite <- !app_assoc. do 2 f_equal. exact E3. }
      specialize (Hmax _ _ E).
      rewrite !forallb_app, Hok, END_dot_or_LF, Hl3 in Hmax.
      specialize (Hmax eq_refl). rewrite !length_app in Hmax.
      pose proof END_length_pos; lia.
    + destruct (app_eq_app_le _ _ _ _ Hl ltac:(lia)) as [l2 [E2 E3]].
      destruct l as [| a l]; [cbn in L; lia | ].
      destruct l2 as [| b l2].
      { rewrite app_nil_r in E2; rewrite E2 in Ll; lia. }
      destruct END_head as [e Ee].
      apply (not_in_existsb _ _ END_no_border).
      rewrite Ee in E3 at 1. cbn in E3. injection E3 as <- _.
      rewrite E2; cbn. apply in_or_app; right; left; reflexivity.
Qed.

(** ** The replacement pattern *)

Lemma GetSubstitution_app_plain (matched before after : jsstring)
    (captures : list jsstring) (t1 t2 : jsstring) :
  forallb no_dollar t1 = true ->
  GetSubstitution matched before after captures (t1 ++ t2)
  = t1 ++ GetSubstitution matched before after captures t2.
Proof.
  induction t1 as [| c t1 IH]; intros H; [reflexivity | ].
  cbn in H; apply andb_true_iff in H as [Hc H].
  cbn [app GetSubstitution]. unfold no_dollar in Hc. rewrite Hc, (IH H); reflexivity.
Qed.

Lemma GetSubstitution_template (matched before after b e T : jsstring) :
  forallb no_dollar T = true ->
  GetSubstitution matched before after [b; e]
    (lit "$1" ++ [LF] ++ T ++ [LF] ++ lit "$2")
  = b ++ [LF] ++ T ++ [LF] ++ e.
Proof.
  intros HT.
  assert (Hhead : forall rest,
            GetSubstitution matched before after [b; e]
              (lit "$1" ++ [LF] ++ rest)
            = b ++ [LF] ++ GetSubstitution matched before after [b; e] rest)
    by reflexivity.
  assert (Htail : GetSubstitution matched before after [b; e] ([LF] ++ lit "$2")
                  = [LF] ++ e)
    by (change (LF :: (e ++ []) = [LF] ++ e); now rewrite app_nil_r).
  rewrite Hhead, GetSubstitution_app_plain by exact HT.
  rewrite Htail. reflexivity.
Qed.

Lemma replace_first_match (content pre mid post r : jsstring) :
  first_match content pre mid post ->
  replace content r
  = pre ++ GetSubstitution (BEGIN ++ mid ++ END) pre post [BEGIN; END] r ++ post.
Proof.
  intros Hfm. unfold replace. rewrite (first_match_exec _ _ _ _ Hfm).
  destruct Hfm as [-> _].
  rewrite firstn_app_length, skipn_app_length.
  replace (length BEGIN + (length mid + length END))
    with (length (BEGIN ++ mid ++ END)) by (rewrite !length_app; lia).
  replace (BEGIN ++ mid ++ END ++ post) with ((BEGIN ++ mid ++ END) ++ post)
    by (now rewrite <- !app_assoc).
  rewrite firstn_app_length.
  replace (pre ++ (BEGIN ++ mid ++ END) ++ post)
    with ((pre ++ BEGIN ++ mid ++ END) ++ post) by (now rewrite <- !app_assoc).
  replace (length pre + length (BEGIN ++ mid ++ END))
    with (length (pre ++ BEGIN ++ mid ++ END)) by (now rewrite length_app).
  rewrite skipn_app_length. reflexivity.
Qed.

(** ** The rows of the table *)

Lemma fold_push_rows (vs : list Version) (acc : list jsstring) :
  fold_left (fun table v => table ++ [row v]) vs acc = acc ++ map row vs.
Proof.
  revert acc; induction vs as [| v vs IH]; intros acc; cbn.
  - now rewrite app_nil_r.
  - rewrite IH, <- app_assoc; reflexivity.
Qed.

Lemma filler_one (c : code_unit) (rest : jsstring) (n : nat) :
  (rest = [] \/ rest = [c]) -> filler [c] rest n = repeat c n.
Proof.
  revert rest; induction n as [| n IH]; intros rest H; [reflexivity | ].
  destruct H as [-> | ->]; cbn; rewrite IH; auto.
Qed.

Lemma zpad_eq (v : Version) :
  zpad v = repeat 48%N (4 - length (Number_toString (version v)))
             ++ Number_toString (version v).
Proof.
  unfold zpad, padStart.
  destruct (4 <=? length (Number_toString (version v))) eqn:E.
  - apply Nat.leb_le in E.
    replace (4 - length (Number_toString (version v))) with 0 by lia.
    reflexivity.
  - change (lit "0") with [48%N]. now rewrite filler_one by auto.
Qed.

Lemma digits_of_uint (d : Decimal.uint) :
  forallb is_digit (lit (NilEmpty.string_of_uint d)) = true.
Proof. induction d; cbn; auto. Qed.

Lemma unlit_lit (s : string) : unlit (lit s) = s.
Proof.
  unfold unlit, lit. rewrite map_map.
  rewrite (map_ext _ (fun a => a)) by (intros a; apply ascii_N_embedding).
  rewrite map_id. apply string_of_list_ascii_of_string.
Qed.

Lemma Number_toString_digits (n : N) :
  forallb is_digit (Number_toString n) = true.
Proof.
  unfold Number_toString, NilZero.string_of_uint.
  destruct (N.to_uint n); try reflexivity; apply digits_of_uint.
Qed.

Lemma N_to_uint_nonnil (n : N) : N.to_uint n <> Decimal.Nil.
Proof.
  destruct n; cbn; [discriminate | apply DecimalPos.Unsigned.to_uint_nonnil].
Qed.

Lemma string_of_list_ascii_app (l1 l2 : list ascii) :
  string_of_list_ascii (l1 ++ l2)
  = (string_of_list_ascii l1 ++ string_of_list_ascii l2)%string.
Proof. induction l1 as [| a l1 IH]; cbn; [reflexivity | now rewrite IH]. Qed.

Lemma unlit_app (a b : jsstring) : unlit (a ++ b) = (unlit a ++ unlit b)%string.
Proof. unfold unlit. now rewrite map_app, string_of_list_ascii_app. Qed.

Lemma uint_of_zeros (k : nat) (s : string) (d : Decimal.uint) :
  NilZero.uint_of_string s = Some d ->
  NilZero.uint_of_string (unlit (repeat 48%N k) ++ s)
  = Some (Nat.iter k Decimal.D0 d).
Proof.
  intros H. induction k as [| k IH]; [exact H | ].
  cbn [repeat Nat.iter]. change (unlit (48%N :: repeat 48%N k))
    with (String "0" (unlit (repeat 48%N k))).
  cbn [String.append]. unfold NilZero.uint_of_string in *.
  cbn [NilEmpty.uint_of_string].
  destruct (unlit (repeat 48%N k) ++ s)%string eqn:E; [discriminate IH | ].
  rewrite IH. reflexivity.
Qed.

Lemma of_uint_zeros (k : nat) (d : Decimal.uint) :
  N.of_uint (Nat.iter k Decimal.D0 d) = N.of_uint d.
Proof. induction k; cbn in *; auto. Qed.

Lemma parse_zpad (v : Version) : parse_decimal (zpad v) = Some (version v).
Proof.
  rewrite zpad_eq. unfold parse_decimal.
  assert (Hd : forallb is_digit
                 (repeat 48%N (4 - length (Number_toString (version v)))
                    ++ Number_toString (version v)) = true).
  { rewrite forallb_app. apply andb_true_iff; split.
    - induction (4 - length (Number_toString (version v))); cbn; auto.
    - apply Number_toString_digits. }
  rewrite Hd, unlit_app. unfold Number_toString at 2. rewrite unlit_lit.
  rewrite (uint_of_zeros _ _ (N.to_uint (version v))).
  - cbn [option_map]. now rewrite of_uint_zeros, DecimalN.Unsigned.of_to.
  - apply NilZero.usu, N_to_uint_nonnil.
Qed.

(** ** How many digits a version number prints with *)

Lemma of_uint_acc_bound (d : Decimal.uint) (acc : positive) :
  (Npos (Pos.of_uint_acc d acc)
   < (Npos acc + 1) * 10 ^ N.of_nat (Decimal.nb_digits d))%N.
Proof.
  revert acc; induction d; intros acc; cbn [Pos.of_uint_acc Decimal.nb_digits];
    [cbn; lia | ..];
    rewrite Nat2N.inj_succ, N.pow_succ_r';
    (eapply N.lt_le_trans; [apply IHd | ]);
    rewrite N.mul_assoc; apply N.mul_le_mono_r; lia.
Qed.

Lemma of_uint_bound (d : Decimal.uint) :
  (N.of_uint d < 10 ^ N.of_nat (Decimal.nb_digits d))%N.
Proof.
  unfold N.of_uint.
  induction d; cbn [Pos.of_uint Decimal.nb_digits];
    [cbn; lia | ..]; rewrite Nat2N.inj_succ, N.pow_succ_r'.
  - eapply N.lt_le_trans; [apply IHd | ].
    pose proof (N.pow_nonzero 10 (N.of_nat (Decimal.nb_digits d))); lia.
  - eapply N.lt_le_trans; [apply of_uint_acc_bound | ]; apply N.mul_le_mono_r; lia.
  - eapply N.lt_le_trans; [apply of_uint_acc_bound | ]; apply N.mul_le_mono_r; lia.
  - eapply N.lt_le_trans; [apply of_uint_acc_bound | ]; apply N.mul_le_mono_r; lia.
  - eapply N.lt_le_trans; [apply of_uint_acc_bound | ]; apply N.mul_le_mono_r; lia.
  - eapply N.lt_le_trans; [apply of_uint_acc_bound | ]; apply N.mul_le_mono_r; lia.
  - eapply N.lt_le_trans; [apply of_uint_acc_bound | ]; apply N.mul_le_mono_r; lia.
  - eapply N.lt_le_trans; [apply of_uint_acc_bound | ]; apply N.mul_le_mono_r; lia.
  - eapply N.lt_le_trans; [apply of_uint_acc_bound | ]; apply N.mul_le_mono_r; lia.
  - eapply N.lt_le_trans; [apply of_uint_acc_bound | ]; apply N.mul_le_mono_r; lia.
Qed.

Lemma length_lit (s : string) : length (lit s) = String.length s.
Proof.
  unfold lit. rewrite length_map. induction s; cbn; auto.
Qed.

Lemma length_string_of_uint (d : Decimal.uint) :
  String.length (NilEmpty.string_of_uint d) = Decimal.nb_digits d.
Proof. induction d; cbn; auto. Qed.

Lemma Number_toString_bound (n : N) :
  (n < 10 ^ N.of_nat (length (Number_toString n)))%N.
Proof.
  unfold Number_toString. rewrite length_lit.
  pose proof (of_uint_bound (N.to_uint n)) as H.
  rewrite DecimalN.Unsigned.of_to in H.
  unfold NilZero.string_of_uint.
  destruct (N.to_uint n) eqn:E;
    [exfalso; exact (N_to_uint_nonnil n E) | ..];
    rewrite length_string_of_uint; exact H.
Qed.

Lemma Number_toString_small :
  forallb (fun n => length (Number_toString (N.of_nat n)) <=? 4)
    (seq 0 (N.to_nat 10000)) = true.
Proof. vm_compute. reflexivity. Qed.

Lemma Number_toString_length_small (n : N) :
  (n < 10000)%N -> length (Number_toString n) <= 4.
Proof.
  intros H. pose proof Number_toString_small as A.
  rewrite forallb_forall in A. specialize (A (N.to_nat n)).
  rewrite N2Nat.id in A. apply Nat.leb_le, A, in_seq. lia.
Qed.

(** ** Plain text *)

Lemma plain_text_split (s : jsstring) :
  plain_text s = true <-> forallb no_dollar s = true /\ forallb dot_or_LF s = true.
Proof.
  unfold plain_text, no_dollar. induction s as [| c s IH]; cbn; [tauto | ].
  rewrite !andb_true_iff, IH; tauto.
Qed.

Lemma plain_text_app (a b : jsstring) :
  plain_text (a ++ b) = plain_text a && plain_text b.
Proof. apply forallb_app. Qed.

Lemma plain_text_digits (s : jsstring) :
  forallb is_digit s = true -> plain_text s = true.
Proof.
  unfold plain_text. induction s as [| c s IH]; cbn; [reflexivity | ].
  rewrite !andb_true_iff. intros [Hc Hs]; split; [| exact (IH Hs)].
  unfold is_digit in Hc. apply andb_true_iff in Hc as [H1 H2].
  apply N.leb_le in H1, H2.
  unfold no_dollar, dot_or_LF, dot, DOLLAR, LF, CR, LS, PS.
  repeat match goal with
         | |- context [(c =? ?k)%N] =>
             let E := fresh in destruct (N.eqb_spec c k) as [E | E]; [lia | ]
         end.
  repeat split.
Qed.

Lemma plain_text_zpad (v : Version) : plain_text (zpad v) = true.
Proof.
  rewrite zpad_eq, plain_text_app, (plain_text_digits _ (Number_toString_digits _)).
  rewrite andb_true_r.
  induction (4 - length (Number_toString (version v))); cbn; auto.
Qed.

Lemma plain_text_row (v : Version) :
  plain_text (or_else (description v) []) = true -> plain_text (row v) = true.
Proof.
  intros H. unfold row. rewrite !plain_text_app, !plain_text_zpad, H. reflexivity.
Qed.

Lemma plain_text_join (sep : jsstring) (xs : list jsstring) :
  plain_text sep = true -> forallb plain_text xs = true ->
  plain_text (join sep xs) = true.
Proof.
  intros Hs. induction xs as [| x xs IH]; cbn [join forallb]; [reflexivity | ].
  rewrite andb_true_iff; intros [Hx Hxs].
  destruct xs as [| y ys]; [exact Hx | ].
  rewrite !plain_text_app, Hx, Hs, (IH Hxs); reflexivity.
Qed.

Lemma plain_text_table (versions : list Version) :
  forallb (fun v => plain_text (or_else (description v) [])) versions = true ->
  plain_text (join [LF] (table versions)) = true.
Proof.
  intros H. apply plain_text_join; [reflexivity | ].
  unfold table; rewrite fold_push_rows. cbn [app forallb].
  change (plain_text (lit "| DB Version | Description |")) with true.
  change (plain_text (lit "| --- | --- |")) with true. cbn [andb].
  induction versions as [| v vs IH]; cbn [map forallb] in *; [reflexivity | ].
  apply andb_true_iff in H as [Hv Hvs].
  now rewrite (plain_text_row _ Hv), (IH Hvs).
Qed.

Ltac norm_app :=
  repeat (rewrite <- app_assoc || rewrite <- app_comm_cons || (progress cbn [app])).

Lemma update_first_match (versions : list Version) (content pre mid post : jsstring) :
  first_match content pre mid post ->
  forallb (fun v => plain_text (or_else (description v) [])) versions = true ->
  update versions content
  = pre ++ BEGIN ++ (LF :: join [LF] (table versions) ++ [LF]) ++ END ++ post.
Proof.
  intros Hfm Hplain. unfold update.
  rewrite (replace_first_match _ _ _ _ _ Hfm).
  apply plain_text_table, plain_text_split in Hplain as [Hd _].
  rewrite (GetSubstitution_template _ _ _ _ _ _ Hd).
  norm_app. reflexivity.
Qed.


Lemma exec_None_no_block (content : jsstring) :
  exec content = None ->
  forall pre mid post,
    content = pre ++ BEGIN ++ mid ++ END ++ post ->
    forallb dot_or_LF mid = false.
Proof.
  intros E pre mid post H. pose proof (exec_spec content) as He.
  rewrite E in He. specialize (He pre mid post H).
  destruct (forallb dot_or_LF mid); [now elim He | reflexivity].
Qed.

(** X1: the label of a version below 10000 is exactly four code units
    long. *)
Theorem zpad_four_wide (v : Version) :
  (version v < 10000)%N -> length (zpad v) = 4.
Proof.
  intros H. rewrite zpad_eq, length_app, repeat_length.
  pose proof (Number_toString_length_small _ H).
  unfold jsstring, code_unit in *. lia.
Qed.

Lemma zpad_four_wide_witness :
  (7 < 10000)%N /\ length (zpad {| version := 7; description := None |}) = 4.
Proof.
  split; [reflexivity | ].
  exact (zpad_four_wide {| version := 7; description := None |} eq_refl).
Defined.

(** X2: padding never truncates: the label of a version of 1000 or more is
    its decimal digits, unchanged. *)
Theorem zpad_keeps_long_versions (v : Version) :
  (1000 <= version v)%N -> (version v <= MAX_SAFE_INTEGER)%N ->
  zpad v = Number_toString (version v).
Proof.
  intros H _. rewrite zpad_eq.
  pose proof (Number_toString_bound (version v)) as B.
  assert (L : 4 <= length (Number_toString (version v))).
  { destruct (length (Number_toString (version v))) as [| [| [| [| k]]]];
      cbn in B; lia. }
  replace (4 - length (Number_toString (version v))) with 0 by lia. reflexivity.
Qed.

Lemma zpad_keeps_long_versions_witness :
  zpad {| version := 12345; description := None |} = lit "12345".
Proof.
  apply (zpad_keeps_long_versions {| version := 12345; description := None |});
    vm_compute; discriminate.
Defined.

(** X3: two versions with the same label have the same number, so distinct
    versions link to distinct files. *)
Theorem zpad_injective (v1 v2 : Version) :
  (version v1 <= MAX_SAFE_INTEGER)%N -> (version v2 <= MAX_SAFE_INTEGER)%N ->
  zpad v1 = zpad v2 -> version v1 = version v2.
Proof.
  intros _ _ H. pose proof (parse_zpad v1) as P1. rewrite H, parse_zpad in P1.
  congruence.
Qed.

Lemma zpad_injective_witness :
  version {| version := 7; description := None |}
  = version {| version := 7; description := Some (lit "seven") |}.
Proof.
  apply zpad_injective; [vm_compute; discriminate .. | reflexivity].
Defined.

(** X4: the table is the two header rows followed by one row per version,
    in the order of [schema.versions]. *)
Theorem table_rows (versions : list Version) :
  table versions
  = lit "| DB Version | Description |" :: lit "| --- | --- |" :: map row versions.
Proof. unfold table. now rewrite fold_push_rows. Qed.

(** X5: what the regular expression matches: the match starts at the first
    start marker that an end marker follows with no CR, U+2028 or U+2029 in
    between, and runs to the last end marker that can be reached that way. *)
Theorem exec_first_match (content : jsstring) (i len : nat) :
  exec content = Some (i, len) <->
  exists pre mid post,
    first_match content pre mid post
    /\ i = length pre /\ len = length BEGIN + (length mid + length END).
Proof.
  split.
  - intros E. pose proof (exec_spec content) as H. rewrite E in H. exact H.
  - intros [pre [mid [post [H [-> ->]]]]]. exact (first_match_exec _ _ _ _ H).
Qed.

(** X6: when no start marker is followed by an end marker without a CR,
    U+2028 or U+2029 in between (in particular when a marker is missing, or
    in a file with CR LF line ends), the content is returned unchanged. *)
Theorem update_without_block (versions : list Version) (content : jsstring) :
  (forall pre mid post,
     content = pre ++ BEGIN ++ mid ++ END ++ post ->
     forallb dot_or_LF mid = false) ->
  update versions content = content.
Proof.
  intros H. unfold update, replace.
  pose proof (exec_spec content) as He. destruct (exec content) as [[i len] |];
    [| reflexivity].
  destruct He as [pre [mid [post [[E [Hok _]] _]]]].
  rewrite (H _ _ _ E) in Hok. discriminate Hok.
Qed.

Lemma update_without_block_witness :
  update example_versions example_crlf = example_crlf.
Proof.
  apply update_without_block. apply exec_None_no_block. reflexivity.
Defined.

(** X7: when the pattern matches and no description holds a [$], a CR, a
    U+2028 or a U+2029, the matched block is replaced by the start marker,
    the rows of the table one per line, and the end marker; what precedes and
    what follows the match is kept. *)
Theorem update_block (versions : list Version) (content : jsstring) (i len : nat) :
  exec content = Some (i, len) ->
  forallb (fun v => plain_text (or_else (description v) [])) versions = true ->
  update versions content
  = firstn i content ++ BEGIN ++ [LF] ++ join [LF] (table versions) ++ [LF]
      ++ END ++ skipn (i + len) content.
Proof.
  intros E Hplain. apply exec_first_match in E as [pre [mid [post [Hfm [-> ->]]]]].
  rewrite (update_first_match _ _ _ _ _ Hfm Hplain).
  destruct Hfm as [-> _].
  rewrite firstn_app_length.
  replace (length pre + (length BEGIN + (length mid + length END)))
    with (length (pre ++ BEGIN ++ mid ++ END)) by (rewrite !length_app; lia).
  replace (pre ++ BEGIN ++ mid ++ END ++ post)
    with ((pre ++ BEGIN ++ mid ++ END) ++ post) by (now rewrite <- !app_assoc).
  rewrite skipn_app_length. norm_app. reflexivity.
Qed.

Lemma update_block_witness :
  update example_versions example_readme
  = firstn 11 example_readme ++ BEGIN ++ [LF]
      ++ join [LF] (table example_versions) ++ [LF]
      ++ END ++ skipn (11 + 79) example_readme.
Proof.
  apply update_block; reflexivity.
Defined.

(** X8: the generator is idempotent: run on its own output, it changes
    nothing (for descriptions without [$], CR, U+2028 and U+2029). *)
Theorem update_idempotent (versions : list Version) (content : jsstring) :
  forallb (fun v => plain_text (or_else (description v) [])) versions = true ->
  update versions (update versions content) = update versions content.
Proof.
  intros Hplain. pose proof (exec_spec content) as He.
  destruct (exec content) as [[i len] |] eqn:E.
  - destruct He as [pre [mid [post [Hfm _]]]].
    rewrite (update_first_match _ _ _ _ _ Hfm Hplain).
    assert (Hfm' : first_match
              (pre ++ BEGIN ++ (LF :: join [LF] (table versions) ++ [LF]) ++ END ++ post)
              pre (LF :: join [LF] (table versions) ++ [LF]) post).
    { pose proof Hfm as [-> _].
      apply (first_match_new_block pre mid post); [exact Hfm | ].
      now apply plain_text_table, plain_text_split in Hplain. }
    apply (update_first_match _ _ _ _ _ Hfm' Hplain).
  - unfold update at 2, replace. rewrite E.
    unfold update, replace. now rewrite E.
Qed.

Lemma update_idempotent_witness :
  update example_versions (update example_versions example_readme)
  = update example_versions example_readme.
Proof.
  apply update_idempotent. reflexivity.
Defined.

End DbVersionsFacts.

(** * Properties of the loader *)

Module LoaderFacts.

Import Loader.
Local Open Scope string_scope.
Local Open Scope list_scope.
Local Open Scope nat_scope.

Lemma find_entry_In (es : list (string * node)) (d : string) (m : node) :
  find_entry es d = Some m -> In (d, m) es.
Proof.
  induction es as [| [name n] es IH]; cbn; [discriminate | ].
  destruct (String.eqb_spec name d) as [-> | _].
  - intros [= ->]; now left.
  - intros H; right; auto.
Qed.

Lemma find_entry_listed (es : list (string * node)) (d : string) :
  In d (map fst es) -> exists m, find_entry es d = Some m.
Proof.
  induction es as [| [name n] es IH]; cbn; [contradiction | ].
  destruct (String.eqb_spec name d) as [-> | Hne].
  - intros _; now exists n.
  - intros [H | H]; [contradiction | auto].
Qed.

Lemma lookup_app (n : node) (p q : path) :
  lookup n (p ++ q)
  = match lookup n p with
    | Some m => lookup m q
    | None => None
    end.
Proof.
  revert n; induction p as [| d p IH]; intros n; [reflexivity | ].
  cbn. destruct n as [data | es]; [reflexivity | ].
  destruct (find_entry es d); [apply IH | reflexivity].
Qed.

Lemma lookup_File_inv (data : option string) (q : path) (m : node) :
  lookup (File data) q = Some m -> q = [] /\ m = File data.
Proof. destruct q; cbn; [intros [= <-]; auto | discriminate]. Qed.

Lemma weight_pos (n : node) : 1 <= weight n.
Proof. destruct n; cbn; lia. Qed.

Lemma weight_entry_le (es : list (string * node)) (d : string) (m : node) :
  In (d, m) es -> weight m <= list_sum (map (fun e => weight (snd e)) es).
Proof.
  induction es as [| e es IH]; cbn; [contradiction | ].
  unfold list_sum in *. cbn [map fold_right].
  intros [-> | H]; [cbn [snd]; lia | specialize (IH H); lia].
Qed.

Section LoaderFacts.

Variable json : Type.
Variable JSON_parse : string -> option json.
Variable extname : string -> string.
Variable fs : node.

Local Abbreviation entry := (entry json).
Local Abbreviation loadSchemas_loop := (loadSchemas_loop json JSON_parse fs).
Local Abbreviation loadSchemas := (loadSchemas json JSON_parse fs).
Local Abbreviation loadReferences := (loadReferences json JSON_parse extname fs).
Local Abbreviation loadReferences_loop := (loadReferences_loop json JSON_parse fs).
Local Abbreviation parseFile := (parseFile json JSON_parse fs).
Local Abbreviation load := (load json JSON_parse extname fs).
Local Abbreviation forEach := (forEach json JSON_parse extname fs).
Local Abbreviation load_entry := (load_entry json JSON_parse extname fs).
Local Abbreviation pending := (pending fs).
Local Abbreviation loaded_from := (loaded_from json JSON_parse fs).
Local Abbreviation references_from := (references_from json JSON_parse fs).
Local Abbreviation services_loaded := (services_loaded json JSON_parse extname fs).
Local Abbreviation deeper := (deeper json).

Lemma pending_app (q1 q2 : list path) : pending (q1 ++ q2) = pending q1 + pending q2.
Proof. unfold Loader.pending. now rewrite map_app, list_sum_app. Qed.

Lemma pending_children (p : path) (es : list (string * node)) (names : list string) :
  lookup fs p = Some (Dir es) -> incl names (map fst es) ->
  pending (map (join p) names)
  <= length names * list_sum (map (fun e => weight (snd e)) es).
Proof.
  intros Hp. induction names as [| d names IH]; intros Hin; [cbn; lia | ].
  change (pending (map (join p) (d :: names)))
    with (pending ([join p d] ++ map (join p) names)).
  rewrite pending_app. cbn [length Nat.mul].
  assert (Hd : pending [join p d] <= list_sum (map (fun e => weight (snd e)) es)).
  { unfold Loader.pending, join; cbn. rewrite lookup_app, Hp. cbn.
    destruct (find_entry_listed es d) as [m Hm]; [apply Hin; now left | ].
    rewrite Hm, Nat.add_0_r. apply (weight_entry_le es d), find_entry_In, Hm. }
  specialize (IH (fun x Hx => Hin x (or_intror Hx))). lia.
Qed.

Lemma parseFile_Ok (p : path) (c : json) :
  parseFile p = Ok c <->
  exists data, lookup fs p = Some (File (Some data)) /\ JSON_parse data = Some c.
Proof.
  unfold Loader.parseFile, readFileSync.
  destruct (lookup fs p) as [[[data |] | es] |]; cbn.
  - destruct (JSON_parse data) as [c' |] eqn:E; split.
    + intros [= ->]; now exists data.
    + intros [data' [[= <-] H]]; congruence.
    + discriminate.
    + intros [data' [[= <-] H]]; congruence.
  - split; [discriminate | intros [data' [[=] _]]].
  - split; [discriminate | intros [data' [[=] _]]].
  - split; [discriminate | intros [data' [[=] _]]].
Qed.

Lemma loadSchemas_loop_total (fuel : nat) (queue : list path) (schemas : list entry) :
  pending queue <= fuel -> exists r, loadSchemas_loop fuel queue schemas = Some r.
Proof.
  revert queue schemas; induction fuel as [| fuel IH]; intros queue schemas H.
  - destruct queue as [| p q]; [eexists; reflexivity | ].
    exfalso. unfold Loader.pending in H; cbn in H.
    destruct (lookup fs p) as [n |]; [pose proof (weight_pos n) | ]; lia.
  - destruct queue as [| p q]; [eexists; reflexivity | ].
    cbn [Loader.loadSchemas_loop]. unfold isDirectory, readdirSync.
    change (pending (p :: q)) with (pending ([p] ++ q)) in H.
    rewrite pending_app in H. unfold Loader.pending at 1 in H; cbn in H.
    destruct (lookup fs p) as [[data | es] |] eqn:Hp.
    + destruct (parseFile p); [| eexists; reflexivity]. apply IH. cbn [weight] in H. lia.
    + apply IH. rewrite pending_app.
      pose proof (pending_children p es (map fst es) Hp (incl_refl _)) as Hc.
      rewrite length_map in Hc. cbn [weight] in H. lia.
    + eexists; reflexivity.
Qed.

Lemma loadSchemas_loop_more_fuel (fuel fuel' : nat) (queue : list path)
    (schemas : list entry) (r : result (list entry)) :
  loadSchemas_loop fuel queue schemas = Some r -> fuel <= fuel' ->
  loadSchemas_loop fuel' queue schemas = Some r.
Proof.
  revert fuel' queue schemas; induction fuel as [| fuel IH];
    intros fuel' queue schemas H L.
  - destruct queue; [| discriminate H]. destruct fuel'; exact H.
  - destruct fuel' as [| fuel']; [lia | ].
    destruct queue as [| p q]; [exact H | ].
    cbn [Loader.loadSchemas_loop] in *.
    destruct (isDirectory fs p) as [[|] | e]; [| | exact H].
    + destruct (readdirSync fs p); [| exact H]. apply IH; [exact H | lia].
    + destruct (parseFile p); [| exact H]. apply IH; [exact H | lia].
Qed.

Lemma loadSchemas_loop_Ok (fuel : nat) (queue : list path)
    (schemas out : list entry) :
  loadSchemas_loop fuel queue schemas = Some (Ok out) ->
  exists new, out = schemas ++ new /\ loaded_from queue new.
Proof.
  revert queue schemas; induction fuel as [| fuel IH]; intros queue schemas H.
  - destruct queue; [| discriminate H]. injection H as <-.
    exists []; split; [now rewrite app_nil_r | ].
    split; [intros e [] | intros q0 rest d []].
  - destruct queue as [| p q].
    { injection H as <-. exists []; split; [now rewrite app_nil_r | ].
      split; [intros e [] | intros q0 rest d []]. }
    cbn [Loader.loadSchemas_loop] in H. unfold isDirectory, readdirSync in H.
    destruct (lookup fs p) as [[data | es] |] eqn:Hp; [| | discriminate H].
    + (* a file *)
      destruct (parseFile p) as [c |] eqn:Hc; [| discriminate H].
      destruct (IH _ _ H) as [new [-> [Hs Hcpl]]].
      exists (mkEntry json p c :: new); split; [now rewrite <- app_assoc | ].
      apply parseFile_Ok in Hc as [dat [Hl Hpar]]. split.
      * intros e [<- | He].
        -- exists p, [], dat; cbn; rewrite app_nil_r; repeat split; auto.
        -- destruct (Hs e He) as [q0 [rest [dt [Hq H']]]].
           exists q0, rest, dt; split; [now right | exact H'].
      * intros q0 rest d [<- | Hq] Hl'.
        -- rewrite lookup_app, Hp in Hl'.
           apply lookup_File_inv in Hl' as [-> Hd].
           rewrite Hp in Hl. injection Hl as ->. injection Hd as ->.
           exists dat, c; rewrite app_nil_r; repeat split; auto. now left.
        -- destruct (Hcpl _ _ _ Hq Hl') as [dt [c' [H1 [H2 H3]]]].
           exists dt, c'; repeat split; auto. now right.
    + (* a directory *)
      destruct (IH _ _ H) as [new [-> [Hs Hcpl]]].
      exists new; split; [reflexivity | split].
      * intros e He. destruct (Hs e He) as [q0 [rest [dt [Hq H']]]].
        apply in_app_or in Hq as [Hq | Hq].
        -- exists q0, rest, dt; split; [now right | exact H'].
        -- apply in_map_iff in Hq as [d [<- _]]. destruct H' as [Hf H'].
           exists p, (d :: rest), dt; split; [now left | split; [| exact H']].
           rewrite Hf. unfold join. now rewrite <- app_assoc.
      * intros q0 rest d [<- | Hq] Hl'.
        -- rewrite lookup_app, Hp in Hl'.
           destruct rest as [| d0 rest]; [discriminate Hl' | ].
           cbn in Hl'. destruct (find_entry es d0) as [m |] eqn:Hf; [| discriminate Hl'].
           assert (Hin : In (join p d0) (q ++ map (join p) (map fst es))).
           { apply in_or_app; right. apply in_map.
             apply find_entry_In in Hf. apply (in_map fst) in Hf. exact Hf. }
           assert (Hl2 : lookup fs (join p d0 ++ rest) = Some (File d)).
           { unfold join. rewrite <- app_assoc, lookup_app, Hp. cbn. now rewrite Hf. }
           destruct (Hcpl _ _ _ Hin Hl2) as [dt [c' [H1 [H2 H3]]]].
           exists dt, c'; repeat split; auto.
           unfold join in H3. now rewrite <- app_assoc in H3.
        -- apply (Hcpl q0 rest d); [apply in_or_app; now left | exact Hl'].
Qed.

Lemma loadSchemas_Ok (fuel : nat) (serviceDirectory : path)
    (schemas out : list entry) :
  loadSchemas fuel serviceDirectory schemas = Some (Ok out) ->
  exists new, out = schemas ++ new
              /\ loaded_from [join serviceDirectory "schemas"] new.
Proof.
  unfold Loader.loadSchemas, existsSync.
  destruct (lookup fs (join serviceDirectory "schemas")) as [n |] eqn:Hl; cbn [negb].
  - apply loadSchemas_loop_Ok.
  - intros [= <-]. exists []; split; [now rewrite app_nil_r | ].
    split; [intros e [] | ].
    intros q0 rest d [<- | []] H. rewrite lookup_app, Hl in H. discriminate H.
Qed.

Lemma loadReferences_loop_Ok (referencesDir : path) (names : list string)
    (references out : list entry) :
  loadReferences_loop referencesDir names references = Ok out ->
  exists new, out = references ++ new /\ references_from referencesDir names new.
Proof.
  revert references; induction names as [| name names IH]; intros references H.
  - injection H as <-. exists []; split; [now rewrite app_nil_r | ].
    split; [intros e [] | intros name []].
  - cbn [Loader.loadReferences_loop] in H.
    destruct (parseFile (join referencesDir name)) as [c |] eqn:Hc; [| discriminate H].
    cbn [bind] in H. destruct (IH _ H) as [new [-> [Hs Hcpl]]].
    apply parseFile_Ok in Hc as [dat [Hl Hpar]].
    exists (mkEntry json (join referencesDir name) c :: new).
    split; [now rewrite <- app_assoc | split].
    + intros e [<- | He].
      * exists name, dat; cbn; repeat split; auto.
      * destruct (Hs e He) as [nm [dt [Hn H']]].
        exists nm, dt; split; [now right | exact H'].
    + intros nm [<- | Hn].
      * exists dat, c; repeat split; auto. now left.
      * destruct (Hcpl nm Hn) as [dt [c' [H1 [H2 H3]]]].
        exists dt, c'; repeat split; auto. now right.
Qed.

Lemma loadReferences_Ok (serviceDirectory : path) (references out : list entry) :
  loadReferences serviceDirectory references = Ok out ->
  exists new,
    out = references ++ new
    /\ (forall e, In e new ->
          exists name data,
            filename json e = join (join serviceDirectory "references") name
            /\ extname name = ".json"%string
            /\ lookup fs (filename json e) = Some (File (Some data))
            /\ JSON_parse data = Some (content json e))
    /\ (forall name n,
          extname name = ".json"%string ->
          lookup fs (join (join serviceDirectory "references") name) = Some n ->
          exists data c,
            n = File (Some data) /\ JSON_parse data = Some c
            /\ In (mkEntry json (join (join serviceDirectory "references") name) c)
                 new).
Proof.
  unfold Loader.loadReferences, existsSync, readdirSync.
  set (dir := join serviceDirectory "references").
  destruct (lookup fs dir) as [[data | es] |] eqn:Hl; cbn [negb bind].
  - discriminate.
  - intros H. apply loadReferences_loop_Ok in H as [new [-> [Hs Hcpl]]].
    exists new; split; [reflexivity | split].
    + intros e He. destruct (Hs e He) as [name [dt [Hn H']]].
      apply filter_In in Hn as [_ Hn]. apply String.eqb_eq in Hn.
      exists name, dt; tauto.
    + intros name n Hext Hn.
      assert (Hin : In name (filter (fun name => (extname name =? ".json")%string)
                               (map fst es))).
      { apply filter_In; split; [| now apply String.eqb_eq].
        unfold join in Hn. rewrite lookup_app, Hl in Hn. cbn in Hn.
        destruct (find_entry es name) as [m |] eqn:Hf; [| discriminate Hn].
        apply find_entry_In in Hf. apply (in_map fst) in Hf. exact Hf. }
      destruct (Hcpl name Hin) as [dt [c [H1 [H2 H3]]]].
      rewrite Hn in H1. injection H1 as ->. exists dt, c; auto.
  - intros [= <-]. exists []; split; [now rewrite app_nil_r | ].
    split; [intros e [] | ].
    intros name n _ H. unfold join in H. rewrite lookup_app, Hl in H. discriminate H.
Qed.

Lemma forEach_Ok (fuel : nat) (dentries : list string)
    (r0 s0 r s : list entry) :
  forEach fuel [] dentries (r0, s0) = Some (Ok (r, s)) ->
  exists newr news,
    r = r0 ++ newr /\ s = s0 ++ news /\ services_loaded dentries newr news.
Proof.
  revert r0 s0; induction dentries as [| d rest IH]; intros r0 s0 H.
  - injection H as <- <-. exists [], []; rewrite !app_nil_r.
    split; [reflexivity | split; [reflexivity | ]].
    split; [| split; [| split; [| split]]];
      first [intros ? ? ? [] | intros ? []].
  - cbn [Loader.forEach] in H. unfold Loader.load_entry in H.
    destruct (startsWith d ".") eqn:Hdot.
    + (* a hidden entry *)
      destruct (IH _ _ H) as [newr [news [-> [-> [HA [HB [HC [HD HE]]]]]]]].
      exists newr, news; split; [reflexivity | split; [reflexivity | ]].
      split; [| split; [| split; [| split]]].
      * intros svc [<- | Hin] Hnd; [congruence | auto].
      * intros e He. destruct (HB e He) as [svc [name [dt [Hin H']]]].
        exists svc, name, dt; split; [now right | exact H'].
      * intros svc name n [<- | Hin] Hnd; [congruence | eauto].
      * intros e He. destruct (HD e He) as [svc [rs [dt [Hin H']]]].
        exists svc, rs, dt; split; [now right | exact H'].
      * intros svc rs dd [<- | Hin] Hnd; [congruence | eauto].
    + unfold isDirectory in H. change (join [] d) with [d] in H.
      destruct (lookup fs [d]) as [[data | es] |] eqn:Hd; try discriminate H.
      cbn [fst snd] in H.
      destruct (loadReferences [d] r0) as [r1 |] eqn:Hr; [| discriminate H].
      destruct (loadSchemas fuel [d] s0) as [[s1 | e] |] eqn:Hs; try discriminate H.
      apply loadReferences_Ok in Hr as [nr1 [-> [Hr1 Hr2]]].
      apply loadSchemas_Ok in Hs as [ns1 [-> [Hs1 Hs2]]].
      destruct (IH _ _ H) as [newr [news [-> [-> [HA [HB [HC [HD HE]]]]]]]].
      exists (nr1 ++ newr), (ns1 ++ news).
      split; [now rewrite app_assoc | split; [now rewrite app_assoc | ]].
      split; [| split; [| split; [| split]]].
      * intros svc [<- | Hin] Hnd; [now exists es | auto].
      * intros e He. apply in_app_or in He as [He | He].
        -- destruct (Hr1 e He) as [name [dt [Hf H']]].
           exists d, name, dt; split; [now left | split; [exact Hdot | ]].
           split; [exact Hf | exact H'].
        -- destruct (HB e He) as [svc [name [dt [Hin H']]]].
           exists svc, name, dt; split; [now right | exact H'].
      * intros svc name n [<- | Hin] Hnd Hext Hl.
        -- destruct (Hr2 name n Hext Hl) as [dt [c [H1 [H2 H3]]]].
           exists dt, c; repeat split; auto. apply in_or_app; now left.
        -- destruct (HC svc name n Hin Hnd Hext Hl) as [dt [c [H1 [H2 H3]]]].
           exists dt, c; repeat split; auto. apply in_or_app; now right.
      * intros e He. apply in_app_or in He as [He | He].
        -- destruct (Hs1 e He) as [q0 [rs [dt [[<- | []] [Hf H']]]]].
           exists d, rs, dt; split; [now left | split; [exact Hdot | ]].
           split; [exact Hf | exact H'].
        -- destruct (HD e He) as [svc [rs [dt [Hin H']]]].
           exists svc, rs, dt; split; [now right | exact H'].
      * intros svc rs dd [<- | Hin] Hnd Hl.
        -- destruct (Hs2 (join [d] "schemas") rs dd (or_introl eq_refl) Hl)
             as [dt [c [H1 [H2 H3]]]].
           exists dt, c; repeat split; auto. apply in_or_app; now left.
        -- destruct (HE svc rs dd Hin Hnd Hl) as [dt [c [H1 [H2 H3]]]].
           exists dt, c; repeat split; auto. apply in_or_app; now right.
Qed.

Lemma load_Ok (fuel : nat) (references schemas : list entry) :
  load fuel = Some (Ok (references, schemas)) ->
  exists es, fs = Dir es /\ services_loaded (map fst es) references schemas.
Proof.
  unfold Loader.load, readdirSync. cbn [lookup].
  destruct fs as [data | es] eqn:Hfs; [discriminate | ].
  rewrite <- Hfs. intros H.
  apply forEach_Ok in H as [newr [news [-> [-> H]]]].
  exists es; split; [exact Hfs | exact H].
Qed.

Lemma load_unfold (fuel : nat) (r : list entry * list entry) :
  load fuel = Some (Ok r) ->
  exists es, fs = Dir es /\ forEach fuel [] (map fst es) ([], []) = Some (Ok r).
Proof.
  unfold Loader.load, readdirSync. cbn [lookup].
  destruct fs as [data | es] eqn:Hfs; [discriminate | ]. rewrite <- Hfs.
  intros H. now exists es.
Qed.

Lemma lookup_top_listed (svc : string) (p : path) (n : node) :
  lookup fs (svc :: p) = Some n ->
  exists es, fs = Dir es /\ In svc (map fst es).
Proof.
  destruct fs as [data | es]; cbn; [discriminate | ].
  destruct (find_entry es svc) as [m |] eqn:Hf; [| discriminate].
  intros _. exists es; split; [reflexivity | ].
  apply find_entry_In in Hf. apply (in_map fst) in Hf. exact Hf.
Qed.

Lemma weight_lookup (n m : node) (p : path) :
  lookup n p = Some m -> weight m <= weight n.
Proof.
  revert n; induction p as [| d p IH]; intros n H.
  - injection H as <-; lia.
  - destruct n as [data | es]; [discriminate H | ]. cbn in H.
    destruct (find_entry es d) as [k |] eqn:Hf; [| discriminate H].
    specialize (IH _ H). apply find_entry_In in Hf.
    pose proof (weight_entry_le es d k Hf) as Hw.
    cbn [weight]. destruct es as [| e es']; [contradiction | ].
    cbn [length]. nia.
Qed.

Lemma loadSchemas_total (fuel : nat) (serviceDirectory : path)
    (schemas : list entry) :
  weight fs <= fuel ->
  exists r, loadSchemas fuel serviceDirectory schemas = Some r.
Proof.
  intros H. unfold Loader.loadSchemas, existsSync.
  destruct (lookup fs (join serviceDirectory "schemas")) as [n |] eqn:Hl; cbn [negb].
  - apply loadSchemas_loop_total. unfold Loader.pending; cbn. rewrite Hl.
    pose proof (weight_lookup _ _ _ Hl). lia.
  - eexists; reflexivity.
Qed.

Lemma forEach_total (fuel : nat) (directory : path) (dentries : list string)
    (acc : list entry * list entry) :
  weight fs <= fuel -> exists r, forEach fuel directory dentries acc = Some r.
Proof.
  intros H. revert acc; induction dentries as [| d rest IH]; intros acc.
  - eexists; reflexivity.
  - cbn [Loader.forEach]. unfold Loader.load_entry.
    destruct (startsWith d "."); [apply IH | ].
    destruct (isDirectory fs (join directory d)) as [[|] | e];
      try (eexists; reflexivity).
    destruct (loadReferences (join directory d) (fst acc)) as [r1 |];
      [| eexists; reflexivity].
    destruct (loadSchemas_total fuel (join directory d) (snd acc) H) as [[s1 | e] ->];
      [apply IH | eexists; reflexivity].
Qed.

Lemma loadSchemas_more_fuel (fuel fuel' : nat) (serviceDirectory : path)
    (schemas : list entry) (r : result (list entry)) :
  loadSchemas fuel serviceDirectory schemas = Some r -> fuel <= fuel' ->
  loadSchemas fuel' serviceDirectory schemas = Some r.
Proof.
  unfold Loader.loadSchemas. destruct (negb _); [auto | ].
  apply loadSchemas_loop_more_fuel.
Qed.

Lemma forEach_more_fuel (fuel fuel' : nat) (directory : path)
    (dentries : list string) (acc : list entry * list entry)
    (r : result (list entry * list entry)) :
  forEach fuel directory dentries acc = Some r -> fuel <= fuel' ->
  forEach fuel' directory dentries acc = Some r.
Proof.
  intros H L. revert acc H; induction dentries as [| d rest IH]; intros acc H.
  - exact H.
  - cbn [Loader.forEach] in *. unfold Loader.load_entry in *.
    destruct (startsWith d "."); [apply IH, H | ].
    destruct (isDirectory fs (join directory d)) as [[|] | e]; try exact H.
    destruct (loadReferences (join directory d) (fst acc)) as [r1 |]; [| exact H].
    destruct (loadSchemas fuel (join directory d) (snd acc)) as [rs |] eqn:Hs;
      [| discriminate H].
    rewrite (loadSchemas_more_fuel _ _ _ _ _ Hs L).
    destruct rs as [s1 | e]; [apply IH, H | exact H].
Qed.

Lemma loadSchemas_loop_order (fuel : nat) (queue : list path)
    (schemas out : list entry) (k : nat) :
  loadSchemas_loop fuel queue schemas = Some (Ok out) ->
  StronglySorted (fun p q => length p <= length q) queue ->
  (forall p, In p queue -> k <= length p <= S k) ->
  exists new,
    out = schemas ++ new /\ StronglySorted deeper new
    /\ forall e, In e new -> k <= length (filename json e).
Proof.
  revert queue schemas k; induction fuel as [| fuel IH];
    intros queue schemas k H Hsort Hk.
  - destruct queue; [| discriminate H]. injection H as <-.
    exists []; split; [now rewrite app_nil_r | split; [constructor | intros e []]].
  - destruct queue as [| p q].
    { injection H as <-.
      exists []; split; [now rewrite app_nil_r | split; [constructor | intros e []]]. }
    cbn [Loader.loadSchemas_loop] in H.
    apply StronglySorted_inv in Hsort as [Hq Hp].
    rewrite Forall_forall in Hp.
    assert (Hkp : k <= length p <= S k) by (apply Hk; now left).
    destruct (isDirectory fs p) as [[|] | e]; [| | discriminate H].
    + destruct (readdirSync fs p) as [names |]; [| discriminate H].
      assert (Hsort' : StronglySorted (fun p q => length p <= length q)
                         (q ++ map (join p) names)).
      { clear H. induction q as [| a q IHq].
        - cbn. clear Hq Hp Hk. induction names as [| d names IHn]; cbn; constructor; auto.
          apply Forall_forall. intros x Hx. apply in_map_iff in Hx as [d' [<- _]].
          unfold join; rewrite !length_app; cbn; lia.
        - apply StronglySorted_inv in Hq as [Hq Ha]. cbn. constructor.
          + apply IHq; auto.
            * intros x Hx; apply Hp; now right.
            * intros x [<- | Hx]; apply Hk; [now left | now right; right].
          + apply Forall_forall. intros x Hx. apply in_app_or in Hx as [Hx | Hx].
            * rewrite Forall_forall in Ha; auto.
            * apply in_map_iff in Hx as [d' [<- _]].
              unfold join; rewrite length_app; cbn.
              assert (length a <= S k) by (apply Hk; now right; left). lia. }
      assert (Hk' : forall x, In x (q ++ map (join p) names) ->
                      length p <= length x <= S (length p)).
      { intros x Hx. apply in_app_or in Hx as [Hx | Hx].
        - split; [apply Hp, Hx | ].
          assert (length x <= S k) by (apply Hk; now right). lia.
        - apply in_map_iff in Hx as [d' [<- _]].
          unfold join; rewrite length_app; cbn; lia. }
      destruct (IH _ _ _ H Hsort' Hk') as [new [-> [Hs Hge]]].
      exists new; split; [reflexivity | split; [exact Hs | ]].
      intros e He; specialize (Hge e He); lia.
    + destruct (parseFile p) as [c |]; [| discriminate H].
      assert (Hk' : forall x, In x q -> length p <= length x <= S (length p)).
      { intros x Hx. split; [apply Hp, Hx | ].
        assert (length x <= S k) by (apply Hk; now right). lia. }
      destruct (IH _ _ _ H Hq Hk') as [new [-> [Hs Hge]]].
      exists (mkEntry json p c :: new); split; [now rewrite <- app_assoc | split].
      * constructor; [exact Hs | ]. apply Forall_forall. intros e He.
        unfold Loader.deeper; cbn. apply Hge, He.
      * intros e [<- | He]; [cbn; lia | specialize (Hge e He); lia].
Qed.

(** X9: [load] terminates on every tree: from a number of loop iterations
    on (the weight of the tree) it returns, and always the same result. *)
Theorem load_terminates :
  exists r, forall fuel, weight fs <= fuel -> load fuel = Some r.
Proof.
  assert (H0 : exists r, load (weight fs) = Some r).
  { unfold Loader.load. destruct (readdirSync fs []); [| eexists; reflexivity].
    apply forEach_total; lia. }
  destruct H0 as [r Hr]. exists r. intros fuel L.
  unfold Loader.load in *. destruct (readdirSync fs []); [| exact Hr].
  exact (forEach_more_fuel _ _ _ _ _ _ Hr L).
Qed.

(** X10: when [load] returns, [schemas] holds exactly the files at any depth
    below the [schemas] entry of a top-level directory whose name does not
    start with a dot, each with its parsed content, whatever the file is
    called. *)
Theorem load_schemas (fuel : nat) (references schemas : list entry) :
  load fuel = Some (Ok (references, schemas)) ->
  forall e,
    In e schemas <->
    exists svc rest data,
      filename json e = svc :: "schemas" :: rest
      /\ startsWith svc "." = false
      /\ lookup fs (filename json e) = Some (File (Some data))
      /\ JSON_parse data = Some (content json e).
Proof.
  intros H e. apply load_Ok in H as [es [Hfs [_ [_ [_ [HD HE]]]]]]. split.
  - intros He. destruct (HD e He) as [svc [rest [data [_ H']]]].
    exists svc, rest, data; tauto.
  - intros [svc [rest [data [Hf [Hnd [Hl Hp]]]]]].
    assert (Hin : In svc (map fst es)).
    { rewrite Hf in Hl. destruct (lookup_top_listed _ _ _ Hl) as [es' [E Hin]].
      rewrite Hfs in E. injection E as <-. exact Hin. }
    rewrite Hf in Hl. destruct (HE svc rest _ Hin Hnd Hl) as [dt [c [E [Hc Hin']]]].
    injection E as <-. rewrite Hp in Hc. injection Hc as <-.
    destruct e as [f c]; cbn in *. now rewrite Hf.
Qed.

(** X11: when [load] returns, [references] holds exactly the files directly
    in the [references] directory of such a top-level directory whose
    extension is [.json], each with its parsed content. *)
Theorem load_references (fuel : nat) (references schemas : list entry) :
  load fuel = Some (Ok (references, schemas)) ->
  forall e,
    In e references <->
    exists svc name data,
      filename json e = [svc; "references"; name]
      /\ startsWith svc "." = false
      /\ extname name = ".json"%string
      /\ lookup fs (filename json e) = Some (File (Some data))
      /\ JSON_parse data = Some (content json e).
Proof.
  intros H e. apply load_Ok in H as [es [Hfs [_ [HB [HC _]]]]]. split.
  - intros He. destruct (HB e He) as [svc [name [data [_ H']]]].
    exists svc, name, data; tauto.
  - intros [svc [name [data [Hf [Hnd [Hext [Hl Hp]]]]]]].
    assert (Hin : In svc (map fst es)).
    { rewrite Hf in Hl. destruct (lookup_top_listed _ _ _ Hl) as [es' [E Hin]].
      rewrite Hfs in E. injection E as <-. exact Hin. }
    rewrite Hf in Hl.
    destruct (HC svc name _ Hin Hnd Hext Hl) as [dt [c [E [Hc Hin']]]].
    injection E as <-. rewrite Hp in Hc. injection Hc as <-.
    destruct e as [f c]; cbn in *. now rewrite Hf.
Qed.

(** X12: [load] skips nothing silently: when it returns, every top-level
    entry without a leading dot is a directory, every file below a [schemas]
    entry was read and parsed, and so was every [.json] entry of a
    [references] directory (which is then a file). *)
Theorem load_returns_only_if (fuel : nat) (r : list entry * list entry) :
  load fuel = Some (Ok r) ->
  forall svc, startsWith svc "." = false ->
    (forall n, lookup fs [svc] = Some n -> exists es, n = Dir es)
    /\ (forall rest d,
          lookup fs (svc :: "schemas" :: rest) = Some (File d) ->
          exists data c, d = Some data /\ JSON_parse data = Some c)
    /\ (forall name n,
          extname name = ".json"%string ->
          lookup fs [svc; "references"; name] = Some n ->
          exists data c, n = File (Some data) /\ JSON_parse data = Some c).
Proof.
  destruct r as [references schemas]. intros H svc Hnd.
  apply load_Ok in H as [es [Hfs [HA [_ [HC [_ HE]]]]]].
  assert (Hin : forall p n, lookup fs (svc :: p) = Some n -> In svc (map fst es)).
  { intros p n Hl. destruct (lookup_top_listed _ _ _ Hl) as [es' [E Hin]].
    rewrite Hfs in E. injection E as <-. exact Hin. }
  split; [| split].
  - intros n Hl. destruct (HA svc (Hin _ _ Hl) Hnd) as [es' E].
    rewrite E in Hl. injection Hl as <-. now exists es'.
  - intros rest d Hl. destruct (HE svc rest d (Hin _ _ Hl) Hnd Hl) as [dt [c [E [Hc _]]]].
    now exists dt, c.
  - intros name n Hext Hl.
    destruct (HC svc name n (Hin _ _ Hl) Hnd Hext Hl) as [dt [c [E [Hc _]]]].
    now exists dt, c.
Qed.

(** X13: [loadSchemas] appends to the array it is given, and lists the files
    it adds breadth first: never a deeper file before a shallower one. *)
Theorem loadSchemas_breadth_first (fuel : nat) (serviceDirectory : path)
    (schemas out : list entry) :
  loadSchemas fuel serviceDirectory schemas = Some (Ok out) ->
  exists new, out = schemas ++ new /\ StronglySorted deeper new.
Proof.
  unfold Loader.loadSchemas. destruct (negb _).
  - intros [= <-]. exists []; split; [now rewrite app_nil_r | constructor].
  - intros H.
    destruct (loadSchemas_loop_order _ _ _ _
                (length (join serviceDirectory "schemas")) H)
      as [new [-> [Hs _]]].
    + repeat constructor.
    + intros p [<- | []]; lia.
    + now exists new.
Qed.

End LoaderFacts.

(** ** No file is loaded twice *)

Lemma distinct_NoDup (names : list string) :
  distinct names = true -> NoDup names.
Proof.
  induction names as [| d rest IH]; cbn; [constructor | ].
  rewrite andb_true_iff, negb_true_iff. intros [Hd Hr]. constructor; [| auto].
  intros Hin. assert (existsb (String.eqb d) rest = true).
  { apply existsb_exists. exists d; split; [exact Hin | apply String.eqb_refl]. }
  congruence.
Qed.

Lemma well_formed_lookup (n m : node) (p : path) :
  well_formed n = true -> lookup n p = Some m -> well_formed m = true.
Proof.
  revert n; induction p as [| d p IH]; intros n Hw H.
  - now injection H as <-.
  - destruct n as [data | es]; [discriminate H | ]. cbn in H.
    destruct (find_entry es d) as [k |] eqn:Hf; [| discriminate H].
    cbn in Hw. apply andb_true_iff in Hw as [_ Hw].
    rewrite forallb_forall in Hw. apply find_entry_In in Hf.
    apply (IH k); [exact (Hw _ Hf) | exact H].
Qed.

Lemma is_prefix_snoc (a p : path) (d : string) :
  is_prefix a (p ++ [d]) -> is_prefix a p \/ a = p ++ [d].
Proof.
  intros [r H]. destruct r as [| x r] using rev_ind.
  - right. now rewrite app_nil_r in H.
  - left. rewrite app_assoc in H. apply app_inj_tail in H as [H _]. now exists r.
Qed.

Lemma is_prefix_trans_snoc (p a : path) (d : string) :
  is_prefix (p ++ [d]) a -> is_prefix p a.
Proof. intros [r ->]. exists ([d] ++ r). now rewrite app_assoc. Qed.

Lemma StronglySorted_app {A} (R : A -> A -> Prop) (l1 l2 : list A) :
  StronglySorted R l1 -> StronglySorted R l2 ->
  (forall a b, In a l1 -> In b l2 -> R a b) ->
  StronglySorted R (l1 ++ l2).
Proof.
  intros H1 H2 H. induction H1 as [| a l1 H1 IH Ha]; [exact H2 | ].
  cbn. constructor.
  - apply IH. intros x y Hx Hy. apply H; [now right | exact Hy].
  - apply Forall_app; split; [exact Ha | ].
    apply Forall_forall. intros y Hy. apply H; [now left | exact Hy].
Qed.

Lemma apart_children (p : path) (names : list string) :
  NoDup names -> StronglySorted apart (map (join p) names).
Proof.
  induction 1 as [| d names Hd Hn IH]; cbn; constructor; [exact IH | ].
  apply Forall_forall. intros x Hx. apply in_map_iff in Hx as [d' [<- Hd']].
  assert (d <> d') by (intros ->; contradiction).
  unfold apart, is_prefix, join; split; intros [r E].
  - destruct r as [| x r]; [rewrite app_nil_r in E | ].
    + apply app_inv_head in E. congruence.
    + rewrite <- app_assoc in E. apply app_inv_head in E. cbn in E. congruence.
  - destruct r as [| x r]; [rewrite app_nil_r in E | ].
    + apply app_inv_head in E. congruence.
    + rewrite <- app_assoc in E. apply app_inv_head in E. cbn in E. congruence.
Qed.

Section Once.

Variable json : Type.
Variable JSON_parse : string -> option json.
Variable extname : string -> string.
Variable fs : node.
Hypothesis fs_well_formed : well_formed fs = true.

Lemma listing_NoDup (p : path) (es : list (string * node)) :
  lookup fs p = Some (Dir es) -> NoDup (map fst es).
Proof.
  intros H. pose proof (well_formed_lookup _ _ _ fs_well_formed H) as Hw.
  cbn in Hw. apply andb_true_iff in Hw as [Hw _]. now apply distinct_NoDup.
Qed.

Lemma loadSchemas_loop_once (fuel : nat) (queue : list path)
    (schemas out : list (entry json)) :
  loadSchemas_loop json JSON_parse fs fuel queue schemas = Some (Ok out) ->
  StronglySorted apart queue ->
  exists new, out = schemas ++ new /\ NoDup (map (filename json) new).
Proof.
  revert queue schemas; induction fuel as [| fuel IH]; intros queue schemas H Hq.
  - destruct queue; [| discriminate H]. injection H as <-.
    exists []; split; [now rewrite app_nil_r | constructor].
  - destruct queue as [| p q].
    { injection H as <-. exists []; split; [now rewrite app_nil_r | constructor]. }
    pose proof H as H0. cbn [Loader.loadSchemas_loop] in H.
    unfold isDirectory, readdirSync in H.
    apply StronglySorted_inv in Hq as [Hq Hp]. rewrite Forall_forall in Hp.
    destruct (lookup fs p) as [[data | es] |] eqn:Hl; [| | discriminate H].
    + destruct (parseFile json JSON_parse fs p) as [c |]; [| discriminate H].
      destruct (IH _ _ H Hq) as [new [-> Hn]].
      destruct (loadSchemas_loop_Ok json JSON_parse fs _ _ _ _ H)
        as [new' [E [Hs _]]].
      apply app_inv_head in E. subst new'.
      exists (mkEntry json p c :: new); split.
      * rewrite <- app_assoc. reflexivity.
      * cbn. constructor; [| exact Hn].
        intros Hin. apply in_map_iff in Hin as [e [Hf He]].
        destruct (Hs e He) as [q0 [rest [dt [Hq0 [Hf' _]]]]].
        destruct (Hp q0 Hq0) as [_ Hnp]. apply Hnp. exists rest. congruence.
    + apply (IH _ _ H). apply StronglySorted_app; [exact Hq | | ].
      * apply apart_children, (listing_NoDup p), Hl.
      * intros a b Ha Hb. apply in_map_iff in Hb as [d [<- _]].
        destruct (Hp a Ha) as [H1 H2]. split.
        -- intros Hpre. apply is_prefix_snoc in Hpre as [Hpre | ->];
             [contradiction | ]. apply H1. now exists [d].
        -- intros Hpre. apply H1. exact (is_prefix_trans_snoc _ _ _ Hpre).
Qed.

Lemma loadSchemas_once (fuel : nat) (svc : path)
    (schemas out : list (entry json)) :
  loadSchemas json JSON_parse fs fuel svc schemas = Some (Ok out) ->
  exists new, out = schemas ++ new /\ NoDup (map (filename json) new).
Proof.
  unfold Loader.loadSchemas. destruct (negb _).
  - intros [= <-]. exists []; split; [now rewrite app_nil_r | constructor].
  - intros H. apply (loadSchemas_loop_once _ _ _ _ H). repeat constructor.
Qed.

Lemma loadReferences_loop_names (dir : path) (names : list string)
    (references out : list (entry json)) :
  loadReferences_loop json JSON_parse fs dir names references = Ok out ->
  exists new, out = references ++ new
              /\ map (filename json) new = map (join dir) names.
Proof.
  revert references; induction names as [| name names IH]; intros references H.
  - injection H as <-. exists []; split; [now rewrite app_nil_r | reflexivity].
  - cbn [Loader.loadReferences_loop] in H.
    destruct (parseFile json JSON_parse fs (join dir name)) as [c |];
      [| discriminate H].
    cbn [bind] in H. destruct (IH _ H) as [new [-> Hn]].
    exists (mkEntry json (join dir name) c :: new); split.
    + now rewrite <- app_assoc.
    + cbn. now rewrite Hn.
Qed.

Lemma loadReferences_once (svc : path) (references out : list (entry json)) :
  loadReferences json JSON_parse extname fs svc references = Ok out ->
  exists new, out = references ++ new /\ NoDup (map (filename json) new).
Proof.
  unfold Loader.loadReferences, existsSync, readdirSync.
  destruct (lookup fs (join svc "references")) as [[data | es] |] eqn:Hl;
    cbn [negb bind].
  - discriminate.
  - intros H. apply loadReferences_loop_names in H as [new [-> Hn]].
    exists new; split; [reflexivity | ]. rewrite Hn.
    apply NoDup_map_NoDup_ForallPairs.
    + intros x y _ _ E. unfold join in E. apply app_inj_tail in E. tauto.
    + apply NoDup_filter, (listing_NoDup _ _ Hl).
  - intros [= <-]. exists []; split; [now rewrite app_nil_r | constructor].
Qed.

Lemma forEach_once (fuel : nat) (dentries : list string)
    (r0 s0 r s : list (entry json)) :
  NoDup dentries ->
  forEach json JSON_parse extname fs fuel [] dentries (r0, s0) = Some (Ok (r, s)) ->
  exists newr news,
    r = r0 ++ newr /\ s = s0 ++ news
    /\ NoDup (map (filename json) newr) /\ NoDup (map (filename json) news).
Proof.
  intros Hnd; revert r0 s0; induction Hnd as [| d rest Hd Hnd IH]; intros r0 s0 H.
  - injection H as <- <-. exists [], []; rewrite !app_nil_r.
    repeat split; constructor.
  - cbn [Loader.forEach] in H. unfold Loader.load_entry in H.
    destruct (startsWith d "."); [exact (IH _ _ H) | ].
    unfold isDirectory in H.
    destruct (lookup fs (join [] d)) as [[data | es] |]; try discriminate H.
    cbn [fst snd] in H.
    destruct (loadReferences json JSON_parse extname fs (join [] d) r0)
      as [r1 |] eqn:Hr; [| discriminate H].
    destruct (loadSchemas json JSON_parse fs fuel (join [] d) s0)
      as [[s1 | e] |] eqn:Hs; try discriminate H.
    destruct (loadReferences_once _ _ _ Hr) as [nr1 [E1 Hn1]].
    destruct (loadSchemas_once _ _ _ _ Hs) as [ns1 [E2 Hn2]].
    apply loadReferences_Ok in Hr as [nr1' [E1' [Hr1 _]]].
    apply loadSchemas_Ok in Hs as [ns1' [E2' [Hs1 _]]].
    rewrite E1 in E1'; apply app_inv_head in E1'; subst nr1'.
    rewrite E2 in E2'; apply app_inv_head in E2'; subst ns1'.
    subst r1 s1.
    destruct (IH _ _ H) as [newr [news [-> [-> [Hnr Hns]]]]].
    destruct (forEach_Ok json JSON_parse extname fs _ _ _ _ _ _ H)
      as [newr' [news' [Er [Es [_ [HB [_ [HD _]]]]]]]].
    apply app_inv_head in Er, Es; subst newr' news'.
    exists (nr1 ++ newr), (ns1 ++ news).
    split; [now rewrite app_assoc | split; [now rewrite app_assoc | ]].
    rewrite !map_app. split; apply NoDup_app; auto.
    + intros f Hf1 Hf2.
      apply in_map_iff in Hf1 as [e1 [<- He1]]. apply in_map_iff in Hf2 as [e2 [E He2]].
      destruct (Hr1 e1 He1) as [name [dt [Hfn _]]].
      destruct (HB e2 He2) as [svc [name2 [dt2 [Hin [_ [Hfn2 _]]]]]].
      rewrite Hfn, Hfn2 in E. cbn in E. injection E as -> _. contradiction.
    + intros f Hf1 Hf2.
      apply in_map_iff in Hf1 as [e1 [<- He1]]. apply in_map_iff in Hf2 as [e2 [E He2]].
      destruct (Hs1 e1 He1) as [q0 [rs [dt [[<- | []] [Hfn _]]]]].
      destruct (HD e2 He2) as [svc [rs2 [dt2 [Hin [_ [Hfn2 _]]]]]].
      rewrite Hfn, Hfn2 in E. cbn in E. injection E as -> _. contradiction.
Qed.

(** X14: in a tree where no directory lists a name twice, no file is loaded
    twice: the file names of [references] are pairwise distinct, and so are
    those of [schemas]. *)
Theorem load_once (fuel : nat) (references schemas : list (entry json)) :
  load json JSON_parse extname fs fuel = Some (Ok (references, schemas)) ->
  NoDup (map (filename json) references) /\ NoDup (map (filename json) schemas).
Proof.
  intros H. apply load_unfold in H as [es [Hfs H]].
  apply forEach_once in H as [newr [news [-> [-> H]]]]; [exact H | ].
  apply (listing_NoDup []). now rewrite <- Hfs.
Qed.

End Once.

Section SameLookups.

Variable json : Type.
Variable JSON_parse : string -> option json.
Variable extname : string -> string.
Variables fs1 fs2 : node.
Variable good : path -> Prop.
Hypothesis good_join : forall p d, good p -> good (join p d).
Hypothesis good_lookup : forall p, good p -> lookup fs1 p = lookup fs2 p.

Lemma same_parseFile (p : path) :
  good p -> parseFile json JSON_parse fs1 p = parseFile json JSON_parse fs2 p.
Proof.
  intros G. unfold Loader.parseFile, readFileSync. now rewrite (good_lookup p G).
Qed.

Lemma same_loadReferences_loop (dir : path) (names : list string)
    (acc : list (entry json)) :
  good dir ->
  loadReferences_loop json JSON_parse fs1 dir names acc
  = loadReferences_loop json JSON_parse fs2 dir names acc.
Proof.
  intros G. revert acc; induction names as [| name names IH]; intros acc;
    [reflexivity | ].
  cbn [Loader.loadReferences_loop].
  rewrite (same_parseFile _ (good_join _ name G)).
  destruct (parseFile json JSON_parse fs2 (join dir name)); cbn [bind]; auto.
Qed.

Lemma same_loadReferences (svc : path) (acc : list (entry json)) :
  good svc ->
  loadReferences json JSON_parse extname fs1 svc acc
  = loadReferences json JSON_parse extname fs2 svc acc.
Proof.
  intros G. unfold Loader.loadReferences, existsSync, readdirSync.
  rewrite (good_lookup _ (good_join _ "references" G)).
  destruct (lookup fs2 (join svc "references")) as [[d | es] |]; cbn [negb bind];
    try reflexivity.
  apply same_loadReferences_loop, good_join, G.
Qed.

Lemma same_loadSchemas_loop (fuel : nat) (queue : list path)
    (acc : list (entry json)) :
  Forall good queue ->
  loadSchemas_loop json JSON_parse fs1 fuel queue acc
  = loadSchemas_loop json JSON_parse fs2 fuel queue acc.
Proof.
  revert queue acc; induction fuel as [| fuel IH]; intros queue acc G;
    destruct queue as [| p q]; try reflexivity.
  cbn [Loader.loadSchemas_loop]. unfold isDirectory, readdirSync.
  apply Forall_cons_iff in G as [Gp Gq].
  rewrite (same_parseFile p Gp), (good_lookup p Gp).
  destruct (lookup fs2 p) as [[d | es] |]; try reflexivity.
  - destruct (parseFile json JSON_parse fs2 p); [apply IH, Gq | reflexivity].
  - apply IH. apply Forall_app; split; [exact Gq | ].
    apply Forall_forall. intros x Hx. apply in_map_iff in Hx as [d [<- _]].
    apply good_join, Gp.
Qed.

Lemma same_loadSchemas (fuel : nat) (svc : path) (acc : list (entry json)) :
  good svc ->
  loadSchemas json JSON_parse fs1 fuel svc acc
  = loadSchemas json JSON_parse fs2 fuel svc acc.
Proof.
  intros G. unfold Loader.loadSchemas, existsSync.
  rewrite (good_lookup _ (good_join _ "schemas" G)).
  destruct (lookup fs2 (join svc "schemas")); cbn [negb]; [| reflexivity].
  apply same_loadSchemas_loop. constructor; [apply good_join, G | constructor].
Qed.

End SameLookups.

Lemma find_entry_visible (es : list (string * node)) (d : string) :
  startsWith d "." = false ->
  find_entry (filter visible es) d = find_entry es d.
Proof.
  intros Hd. induction es as [| [name n] es IH]; [reflexivity | ].
  cbn [filter find_entry]. unfold visible at 1; cbn [fst].
  destruct (String.eqb_spec name d) as [-> | Hne].
  - rewrite Hd; cbn. now rewrite String.eqb_refl.
  - destruct (startsWith name "."); cbn; [exact IH | ].
    destruct (String.eqb_spec name d); [contradiction | exact IH].
Qed.

Lemma forEach_hidden (json : Type) (JSON_parse : string -> option json)
    (extname : string -> string) (es : list (string * node)) (fuel : nat)
    (names : list string) (acc : list (entry json) * list (entry json)) :
  forEach json JSON_parse extname (Dir es) fuel [] names acc
  = forEach json JSON_parse extname (Dir (filter visible es)) fuel []
      (filter (fun d => negb (startsWith d ".")) names) acc.
Proof.
  set (good := fun p : path =>
                 exists d p', p = d :: p' /\ startsWith d "." = false).
  assert (Gj : forall p d, good p -> good (join p d)).
  { intros p d [d0 [p' [-> H]]]. now exists d0, (p' ++ [d]). }
  assert (Gl : forall p, good p ->
                 lookup (Dir es) p = lookup (Dir (filter visible es)) p).
  { intros p [d [p' [-> H]]]. cbn. now rewrite (find_entry_visible es d H). }
  revert acc; induction names as [| d rest IH]; intros acc; [reflexivity | ].
  cbn [filter Loader.forEach]. unfold Loader.load_entry at 1.
  destruct (startsWith d ".") eqn:Hd; cbn [negb]; [apply IH | ].
  cbn [Loader.forEach]. unfold Loader.load_entry. rewrite Hd.
  assert (G : good (join [] d)) by (now exists d, []).
  unfold isDirectory. rewrite (Gl _ G).
  destruct (lookup (Dir (filter visible es)) (join [] d)) as [[dt | es'] |];
    try reflexivity.
  rewrite (same_loadReferences json JSON_parse extname _ _ good Gj Gl _ _ G).
  destruct (loadReferences json JSON_parse extname (Dir (filter visible es))
              (join [] d) (fst acc)); [| reflexivity].
  rewrite (same_loadSchemas json JSON_parse _ _ good Gj Gl _ _ _ G).
  destruct (loadSchemas json JSON_parse (Dir (filter visible es)) fuel
              (join [] d) (snd acc)) as [[s1 | e] |]; try reflexivity.
  apply IH.
Qed.

(** X15: top-level entries whose name starts with a dot have no effect on
    [load]: the result is the one of the tree without them (so a hidden
    regular file never raises the not-a-directory error). *)
Theorem load_ignores_hidden (json : Type) (JSON_parse : string -> option json)
    (extname : string -> string) (es : list (string * node)) (fuel : nat) :
  load json JSON_parse extname (Dir es) fuel
  = load json JSON_parse extname (Dir (filter visible es)) fuel.
Proof.
  unfold Loader.load, readdirSync; cbn [lookup].
  rewrite forEach_hidden. f_equal.
  induction es as [| [name n] es' IH]; [reflexivity | ].
  cbn [map filter fst]. change (visible (name, n)) with (negb (startsWith name ".")).
  destruct (startsWith name "."); cbn [negb map fst]; [exact IH | now rewrite IH].
Qed.

(** The result of [load] on the example tree. *)
Lemma load_example :
  load string example_parse extname_of_name example_tree 100
  = Some (Ok ([ mkEntry string ["auth"; "references"; "api.json"] "{api}" ],
              [ mkEntry string ["auth"; "schemas"; "b.json"] "{b}";
                mkEntry string ["auth"; "schemas"; "v1"; "a.yml"] "{a}" ])).
Proof. reflexivity. Qed.

Lemma load_schemas_witness :
  In (mkEntry string ["auth"; "schemas"; "v1"; "a.yml"] "{a}")
    [ mkEntry string ["auth"; "schemas"; "b.json"] "{b}";
      mkEntry string ["auth"; "schemas"; "v1"; "a.yml"] "{a}" ]
  <->
  exists svc rest data,
    ["auth"; "schemas"; "v1"; "a.yml"] = svc :: "schemas" :: rest
    /\ startsWith svc "." = false
    /\ lookup example_tree ["auth"; "schemas"; "v1"; "a.yml"]
       = Some (File (Some data))
    /\ example_parse data = Some "{a}".
Proof.
  exact (load_schemas string example_parse extname_of_name example_tree 100
           _ _ load_example
           (mkEntry string ["auth"; "schemas"; "v1"; "a.yml"] "{a}")).
Defined.

Lemma load_references_witness :
  In (mkEntry string ["auth"; "references"; "notes.txt"] "not json")
    [ mkEntry string ["auth"; "references"; "api.json"] "{api}" ]
  <->
  exists svc name data,
    ["auth"; "references"; "notes.txt"] = [svc; "references"; name]
    /\ startsWith svc "." = false
    /\ extname_of_name name = ".json"
    /\ lookup example_tree ["auth"; "references"; "notes.txt"]
       = Some (File (Some data))
    /\ example_parse data = Some "not json".
Proof.
  exact (load_references string example_parse extname_of_name example_tree 100
           _ _ load_example
           (mkEntry string ["auth"; "references"; "notes.txt"] "not json")).
Defined.

Lemma load_returns_only_if_witness :
  exists data c, Some "{a}" = Some data /\ example_parse data = Some c.
Proof.
  exact (proj1 (proj2 (load_returns_only_if string example_parse extname_of_name
                         example_tree 100 _ load_example "auth" eq_refl))
           ["v1"; "a.yml"] (Some "{a}") eq_refl).
Defined.

Lemma loadSchemas_breadth_first_witness :
  exists new,
    [ mkEntry string ["auth"; "schemas"; "b.json"] "{b}";
      mkEntry string ["auth"; "schemas"; "v1"; "a.yml"] "{a}" ]
    = [] ++ new
    /\ StronglySorted (deeper string) new.
Proof.
  exact (loadSchemas_breadth_first string example_parse example_tree 100
           ["auth"] [] _ eq_refl).
Defined.

Lemma load_once_witness :
  NoDup (map (filename string)
           [ mkEntry string ["auth"; "references"; "api.json"] "{api}" ])
  /\ NoDup (map (filename string)
              [ mkEntry string ["auth"; "schemas"; "b.json"] "{b}";
                mkEntry string ["auth"; "schemas"; "v1"; "a.yml"] "{a}" ]).
Proof.
  exact (load_once string example_parse extname_of_name example_tree eq_refl 100
           _ _ load_example).
Defined.

End LoaderFacts.

(** * Properties of the RDP feature and of the notify fakes *)

Module RdpFacts.

Import RdpFeature.
Local Open Scope string_scope.

Lemma split_at_slash (p1 p2 w1 w2 : string) :
  has_byte "/" p1 = false -> has_byte "/" p2 = false ->
  p1 ++ "/" ++ w1 = p2 ++ "/" ++ w2 -> p1 = p2 /\ w1 = w2.
Proof.
  revert p2; induction p1 as [| c p1 IH]; intros p2 H1 H2 E.
  - destruct p2 as [| c2 p2]; cbn in *.
    + injection E as ->; auto.
    + injection E as <- _. cbn in H2. discriminate H2.
  - destruct p2 as [| c2 p2]; cbn in *.
    + injection E as -> _. cbn in H1. discriminate H1.
    + injection E as -> E. apply orb_false_iff in H1 as [_ H1], H2 as [_ H2].
      destruct (IH p2 H1 H2 E) as [-> ->]; auto.
Qed.

(** X16: the scope the RDP feature requires determines the worker pool: two
    tasks whose provisioner ids hold no slash and that require the same
    scopes have the same provisioner id and worker type. *)
Theorem RequiredScopes_injective (t1 t2 : TaskRun) :
  has_byte "/" (ProvisionerID (Definition_ t1)) = false ->
  has_byte "/" (ProvisionerID (Definition_ t2)) = false ->
  RequiredScopes t1 = RequiredScopes t2 ->
  Definition_ t1 = Definition_ t2.
Proof.
  intros H1 H2 E. unfold RequiredScopes in E. injection E as E.
  destruct (split_at_slash _ _ (WorkerType (Definition_ t1))
              (WorkerType (Definition_ t2)) H1 H2 E) as [Ep Ew].
  destruct (Definition_ t1), (Definition_ t2); cbn in *; congruence.
Qed.

Lemma RequiredScopes_injective_witness :
  Definition_ (mkTaskRun (mkTaskDefinition "aws" "win2022") (mkPayload "rdp.json"))
  = Definition_ (mkTaskRun (mkTaskDefinition "aws" "win2022") (mkPayload EmptyString)).
Proof.
  apply RequiredScopes_injective; reflexivity.
Defined.

End RdpFacts.

Module NotifyFacts.
Import JS NotifyHelper.
Local Open Scope list_scope.

Lemma includes_iff (s needle : jsstring) :
  includes s needle = true <-> exists pre post, s = pre ++ needle ++ post.
Proof.
  induction s as [| c s IH]; cbn [includes]; rewrite orb_true_iff.
  - split.
    + intros [H | H]; [| discriminate H].
      apply DbVersionsFacts.starts_with_iff in H as [t H]. now exists [], t.
    + intros [pre [post H]]. left. destruct pre; [| discriminate H].
      apply DbVersionsFacts.starts_with_iff. now exists post.
  - rewrite IH. split.
    + intros [H | [pre [post ->]]].
      * apply DbVersionsFacts.starts_with_iff in H as [t H]. now exists [], t.
      * now exists (c :: pre), post.
    + intros [pre [post H]]. destruct pre as [| a pre].
      * left. apply DbVersionsFacts.starts_with_iff. now exists post.
      * right. injection H as _ ->. now exists pre, post.
Qed.

(** X17: the fake denier denies exactly the addresses in which [denied]
    occurs, whatever the notification type. *)
Theorem isDenied_iff (notificationType notificationAddress : jsstring) :
  isDenied notificationType notificationAddress = true <->
  exists pre post, notificationAddress = pre ++ lit "denied" ++ post.
Proof. apply includes_iff. Qed.

(** X18: the fake Matrix client throws exactly for the room ids in which
    [rejected] occurs, and what it throws carries the error code
    [M_FORBIDDEN]. *)
Theorem fakeMatrixSend_throws_iff (roomId : jsstring) :
  (fakeMatrixSend roomId <> None <->
   exists pre post, roomId = pre ++ lit "rejected" ++ post)
  /\ forall e, fakeMatrixSend roomId = Some e -> errcode e = lit "M_FORBIDDEN".
Proof.
  unfold fakeMatrixSend. rewrite <- includes_iff.
  destruct (includes roomId (lit "rejected")); split.
  - split; [reflexivity | discriminate].
  - intros e [= <-]; reflexivity.
  - split; [intros H; now elim H | discriminate].
  - discriminate.
Qed.

(** X19: after a reset and any number of sends, [checkEmails] passes exactly
    when one email was sent; it then hands that email over and leaves the
    mock empty. *)
Theorem checkEmails_after_sends (ses : MockSES) (cs : list RawEmail) :
  checkEmails (fold_left sendRawEmail cs (reset ses))
  = match cs with
    | [c] => Some (Some (mkEmail (Destinations c) (RawMessage_Data c)), new_MockSES)
    | _ => None
    end.
Proof.
  assert (H : forall cs st, fold_left sendRawEmail cs st
            = st ++ map (fun c => mkEmail (Destinations c) (RawMessage_Data c)) cs).
  { induction cs0 as [| c cs0 IH]; intros st; cbn; [now rewrite app_nil_r | ].
    rewrite IH. unfold sendRawEmail. now rewrite <- app_assoc. }
  rewrite H. unfold reset, checkEmails. cbn [app]. rewrite length_map.
  destruct cs as [| c [| c2 cs]]; reflexivity.
Qed.

End NotifyFacts.

Module BuiltInWorkersFacts.

Import JS BuiltInWorkersHelper.
Local Open Scope list_scope.

Lemma pop_last {A : Type} (l : list A) (x : A) :
  NotifyHelper.pop (l ++ [x]) = (Some x, l).
Proof.
  induction l as [| a l IH]; [reflexivity | ].
  cbn [app NotifyHelper.pop]. rewrite IH.
  destruct (l ++ [x]) eqn:E; [destruct l; discriminate E | reflexivity].
Qed.

(** X20: [claimWork] hands out the response queued last (not the oldest) and
    removes it from [claimableWork]; every task of the response then carries
    the [task-creds] credentials, and the response carries the worker group
    and worker id of the caller's payload. *)
Theorem claimWork_last_in_first_out (task_body : Type)
    (queued : list (Work task_body)) (work : Work task_body)
    (payload : ClaimPayload) :
  exists handed,
    claimWork task_body (lit "built-in-workers") (queued ++ [work]) payload
    = inr (handed, queued)
    /\ map (body task_body) (tasks task_body handed)
       = map (body task_body) (tasks task_body work)
    /\ Forall (fun task =>
                 credentials task_body task
                 = Some (mkCredentials (lit "task-creds") (lit "none")))
         (tasks task_body handed)
    /\ workerGroup task_body handed = Some (payload_workerGroup payload)
    /\ workerId task_body handed = Some (payload_workerId payload).
Proof.
  unfold claimWork. change (negb (eqb_jsstring _ _)) with false. cbv iota.
  rewrite pop_last. eexists; split; [reflexivity | ]. cbn.
  split; [now rewrite map_map | split; [| auto]].
  apply Forall_forall. intros t Ht. apply in_map_iff in Ht as [t0 [<- _]].
  reflexivity.
Qed.

End BuiltInWorkersFacts.

